(** * GPS stabilisation hooks of GPS-TUNNEL, embedded in Rocq

    Three React hooks turn raw browser geolocation readings into a display
    position:
    - [useStableGPS]     (src/src/hooks/useVoiceNavigation.ts, second half):
      confidence scoring, validation, median filter, Kalman filter and
      exponential smoothing;
    - [useUltraStableGPS] (src/src/hooks/useUltraStableGPS.ts): validation,
      weighted average and a position-lock state machine;
    - [useMobileGPS]     (src/src/hooks/useMobileGPS.ts): validation and a
      scalar Kalman filter.

    JavaScript numbers are modelled as real numbers; [Date.now()] is an
    argument of each callback.  Mutable [useRef] cells and React state are
    fields of an explicit state record that each callback returns updated. *)

From Stdlib Require Import Reals Lra Lia List Bool Arith.
From Stdlib Require Strings.String.
From Stdlib Require Import Sorting.Permutation Sorting.Sorted.
Import ListNotations.
Open Scope R_scope.

(** ** JavaScript number helpers *)

Definition Rltb (x y : R) : bool := if Rlt_dec x y then true else false.
Definition Rleb (x y : R) : bool := if Rle_dec x y then true else false.
Definition Reqb (x y : R) : bool := if Req_dec_T x y then true else false.

(** [Math.max] and [Math.min] on two non-NaN numbers. *)
Definition Math_max (a b : R) : R := if Rltb a b then b else a.
Definition Math_min (a b : R) : R := if Rltb b a then b else a.

(** [Math.atan2(y, x)], for the finite arguments that occur here. *)
Definition Math_atan2 (y x : R) : R :=
  if Rltb 0 x then atan (y / x)
  else if Rltb x 0 then
    (if Rleb 0 y then atan (y / x) + PI else atan (y / x) - PI)
  else if Rltb 0 y then PI / 2
  else if Rltb y 0 then - (PI / 2)
  else 0.

#[global] Arguments Rltb : simpl never.
#[global] Arguments Rleb : simpl never.
#[global] Arguments Reqb : simpl never.
#[global] Arguments Math_max : simpl never.
#[global] Arguments Math_min : simpl never.

(** ** Positions and the Haversine distance *)

(** [interface Position { lat: number; lng: number }] (src/types). *)
Record Position := mkPos { lat : R; lng : R }.

(** [calculateDistance], identical in useUltraStableGPS.ts (lines 51-64),
    useVoiceNavigation.ts (lines 246-259) and useMobileGPS.ts (lines 71-84). *)
Definition calculateDistance (pos1 pos2 : Position) : R :=
  let R_earth := 6371000 in
  let lat1Rad := lat pos1 * PI / 180 in
  let lat2Rad := lat pos2 * PI / 180 in
  let deltaLat := (lat pos2 - lat pos1) * PI / 180 in
  let deltaLng := (lng pos2 - lng pos1) * PI / 180 in
  let a := sin (deltaLat / 2) * sin (deltaLat / 2) +
           cos lat1Rad * cos lat2Rad *
           sin (deltaLng / 2) * sin (deltaLng / 2) in
  let c := 2 * Math_atan2 (sqrt a) (sqrt (1 - a)) in
  R_earth * c.


(** [pos.coords] of a browser [GeolocationPosition]: the three fields read. *)
Record Coords := mkCoords { latitude : R; longitude : R; coordAccuracy : R }.

(** [arr.slice(-k)] for [k > 0]. *)
Definition slice_last {A} (k : nat) (l : list A) : list A :=
  skipn (length l - k) l.

(** [arr.push(r); if (arr.length > cap) arr.shift();] *)
Definition pushShift {A} (cap : nat) (l : list A) (r : A) : list A :=
  let l' := l ++ [r] in
  if (cap <? length l')%nat then tl l' else l'.

(** [arr.sort((a, b) => a - b)] on numbers: the sorted arrangement. *)
Fixpoint insertR (v : R) (l : list R) : list R :=
  match l with
  | [] => [v]
  | w :: l' => if Rleb v w then v :: w :: l' else w :: insertR v l'
  end.

Fixpoint sortR (l : list R) : list R :=
  match l with
  | [] => []
  | v :: l' => insertR v (sortR l')
  end.

(** "m is a median of l": m is one of the values, at most half of the
    values lie strictly below it and at most half strictly above it. *)
Definition isMedian (l : list R) (m : R) : Prop :=
  In m l /\
  (2 * length (filter (fun v => Rltb v m) l) <= length l)%nat /\
  (2 * length (filter (fun v => Rltb m v) l) <= length l)%nat.

Inductive SignalQuality := Excellent | Good | Fair | Poor.

(** ** Scores that can leave the finite numbers

    The stable hook's confidence score divides by
    [maxAccuracy - minAccuracy]; when the options make that difference 0,
    JavaScript yields [Infinity], [-Infinity] or [NaN] there, and the
    score carries it on.  [JSNum] is such a number, and the operations
    below follow ECMAScript on it. *)
Inductive JSNum := Fin (r : R) | PosInf | NegInf | NaN.

(** [x / y] for finite [x] and [y]; [y] is a difference, so a zero [y] is
    [+0]. *)
Definition js_div (x y : R) : JSNum :=
  if Reqb y 0 then
    (if Rltb 0 x then PosInf else if Rltb x 0 then NegInf else NaN)
  else Fin (x / y).

(** [a - n] for a finite [a]. *)
Definition js_sub (a : R) (n : JSNum) : JSNum :=
  match n with
  | Fin r => Fin (a - r)
  | PosInf => NegInf
  | NegInf => PosInf
  | NaN => NaN
  end.

(** An infinity (positive when [pos]) times the finite [a]. *)
Definition js_mul_inf (pos : bool) (a : R) : JSNum :=
  if Rltb 0 a then (if pos then PosInf else NegInf)
  else if Rltb a 0 then (if pos then NegInf else PosInf)
  else NaN.

Definition js_mul (n m : JSNum) : JSNum :=
  match n, m with
  | NaN, _ | _, NaN => NaN
  | Fin a, Fin b => Fin (a * b)
  | Fin a, PosInf | PosInf, Fin a => js_mul_inf true a
  | Fin a, NegInf | NegInf, Fin a => js_mul_inf false a
  | PosInf, PosInf | NegInf, NegInf => PosInf
  | PosInf, NegInf | NegInf, PosInf => NegInf
  end.

(** [Math.max] and [Math.min]: [NaN] as soon as one argument is [NaN]. *)
Definition js_max (n m : JSNum) : JSNum :=
  match n, m with
  | NaN, _ | _, NaN => NaN
  | PosInf, _ | _, PosInf => PosInf
  | NegInf, x | x, NegInf => x
  | Fin a, Fin b => Fin (Math_max a b)
  end.

Definition js_min (n m : JSNum) : JSNum :=
  match n, m with
  | NaN, _ | _, NaN => NaN
  | NegInf, _ | _, NegInf => NegInf
  | PosInf, x | x, PosInf => x
  | Fin a, Fin b => Fin (Math_min a b)
  end.

(** [n < m]: false as soon as one side is [NaN]. *)
Definition js_lt (n m : JSNum) : bool :=
  match n, m with
  | NaN, _ | _, NaN => false
  | Fin a, Fin b => Rltb a b
  | Fin _, PosInf => true
  | Fin _, NegInf => false
  | PosInf, _ => false
  | NegInf, NegInf => false
  | NegInf, _ => true
  end.

(** * useStableGPS (src/src/hooks/useVoiceNavigation.ts, lines 179-586) *)
Module Stable.

Record Options := mkOptions {
  minAccuracy : R; maxAccuracy : R; smoothingFactor : R;
  outlierThreshold : R; minUpdateInterval : R;
  enableKalmanFilter : bool; enableMedianFilter : bool;
  enableConfidenceFiltering : bool }.

Definition defaultOptions : Options :=
  mkOptions 5 50 0.3 30 500 true true true.

(** [interface GPSReading extends Position]; [speed] and [heading] are
    stored by the hook but read by no filter, so they are left out. *)
Record GPSReading := mkReading {
  pos : Position; accuracy : R; timestamp : R; confidence : JSNum }.

(** [kalmanState.current]: [x] is the state vector, [P] the covariance
    (an array of rows), [Qn] and [Rn] the fields [Q] and [R]. *)
Record KalmanState := mkKalman {
  x : list R; P : list (list R); Qn : R; Rn : R; initialized : bool }.

Definition initialKalman : KalmanState :=
  mkKalman [0; 0; 0; 0]
    [[1000; 0; 0; 0]; [0; 1000; 0; 0]; [0; 0; 1000; 0]; [0; 0; 0; 1000]]
    0.1 1 false.

(** The refs and the React state of the hook. *)
Record State := mkState {
  readings : list GPSReading;
  lastValidReading : option GPSReading;
  lastUpdateTime : R;
  stabilizedPosition : option Position;
  kalmanState : KalmanState;
  s_position : option Position;
  s_smoothedPosition : option Position;
  s_accuracy : R;
  s_confidence : JSNum;
  s_signalQuality : SignalQuality;
  s_error : option String.string;
  s_isLoading : bool }.

Definition initialState : State :=
  mkState [] None 0 None initialKalman None None 0 (Fin 0) Poor None false.

Definition at_ (v : list R) (i : nat) : R := nth i v 0.
Definition entry (M : list (list R)) (i j : nat) : R := nth j (nth i M []) 0.

(** [applyKalmanFilter] (lines 262-311).  The matrix [F] built there is
    never read, so it does not appear. *)
Definition applyKalmanFilter (state : KalmanState)
    (lastValid : option GPSReading) (reading : GPSReading)
    : KalmanState * Position :=
  let dt := match lastValid with
            | Some lv => (timestamp reading - timestamp lv) / 1000
            | None => 1
            end in
  if negb (initialized state) then
    (mkKalman [lat (pos reading); lng (pos reading); 0; 0]
       (P state) (Qn state) (Rn state) true,
     mkPos (lat (pos reading)) (lng (pos reading)))
  else
    let sx := x state in
    let x_pred := [at_ sx 0 + at_ sx 2 * dt; at_ sx 1 + at_ sx 3 * dt;
                   at_ sx 2; at_ sx 3] in
    let R' := Math_max 0.1 (accuracy reading / 10) in
    let y := [lat (pos reading) - at_ x_pred 0; lng (pos reading) - at_ x_pred 1] in
    let S := entry (P state) 0 0 + R' in
    let K := [[entry (P state) 0 0 / S; entry (P state) 0 1 / S];
              [entry (P state) 1 0 / S; entry (P state) 1 1 / S];
              [entry (P state) 2 0 / S; entry (P state) 2 1 / S];
              [entry (P state) 3 0 / S; entry (P state) 3 1 / S]] in
    let upd i := at_ x_pred i + entry K i 0 * at_ y 0 + entry K i 1 * at_ y 1 in
    let x' := [upd 0%nat; upd 1%nat; upd 2%nat; upd 3%nat] in
    (mkKalman x' (P state) (Qn state) R' true, mkPos (at_ x' 0) (at_ x' 1)).

(** [applyMedianFilter] (lines 314-328), given [readings.current]. *)
Definition applyMedianFilter (rs : list GPSReading) (reading : GPSReading)
    : Position :=
  let recentReadings := slice_last 5 rs in
  if (length recentReadings <? 3)%nat then
    mkPos (lat (pos reading)) (lng (pos reading))
  else
    let lats := sortR (map (fun r => lat (pos r)) recentReadings) in
    let lngs := sortR (map (fun r => lng (pos r)) recentReadings) in
    mkPos (nth (length lats / 2) lats 0) (nth (length lngs / 2) lngs 0).

(** [calculateConfidence] (lines 331-358), given the refs.  Only the
    accuracy factor divides by a difference that can be 0, so only it can
    leave the finite numbers. *)
Definition calculateConfidence (o : Options) (st : State) (reading : GPSReading)
    : JSNum :=
  let c1 :=
    if Rltb 0 (accuracy reading) then
      js_mul (Fin 1.0)
        (js_max (Fin 0.1) (js_sub 1 (js_div (accuracy reading - minAccuracy o)
                                            (maxAccuracy o - minAccuracy o))))
    else Fin 1.0 in
  let c2 :=
    if (2 <? length (readings st))%nat then
      let recent := slice_last 3 (readings st) in
      let avgLat := fold_left (fun sum r => sum + lat (pos r)) recent 0
                    / INR (length recent) in
      let avgLng := fold_left (fun sum r => sum + lng (pos r)) recent 0
                    / INR (length recent) in
      let deviation := calculateDistance (pos reading) (mkPos avgLat avgLng) in
      js_mul c1 (js_max (Fin 0.1) (Fin (1 - deviation / 20)))
    else c1 in
  let c3 :=
    match lastValidReading st with
    | Some lv =>
        if Rltb (timestamp reading - timestamp lv) 1000
        then js_mul c2 (Fin 0.7) else c2
    | None => c2
    end in
  js_max (Fin 0.1) (js_min (Fin 1.0) c3).

(** [isValidReading] (lines 361-387). *)
Definition isValidReading (o : Options) (st : State) (reading : GPSReading)
    : bool :=
  if Rltb (accuracy reading) (minAccuracy o) ||
     Rltb (maxAccuracy o) (accuracy reading) then false
  else
    match lastValidReading st with
    | Some lv =>
        let distance := calculateDistance (pos reading) (pos lv) in
        let timeDiff := (timestamp reading - timestamp lv) / 1000 in
        if Rltb 0 timeDiff && Rltb 55 (distance / timeDiff) then false
        else if Rltb (outlierThreshold o) distance then false
        else true
    | None => true
    end.

(** Lines 429-433: the median stage of the pipeline. *)
Definition medianStage (o : Options) (rs : list GPSReading) (reading : GPSReading)
    : Position :=
  if enableMedianFilter o && (3 <=? length rs)%nat
  then applyMedianFilter rs reading
  else mkPos (lat (pos reading)) (lng (pos reading)).

Definition qualityOf (acc : R) : SignalQuality :=
  if Rleb acc 10 then Excellent
  else if Rleb acc 20 then Good
  else if Rleb acc 35 then Fair
  else Poor.

(** [processGPSReading] (lines 390-477): the [watchPosition] callback, at
    time [now = Date.now()]. *)
Definition processGPSReading (o : Options) (st : State) (now : R) (c : Coords)
    : State :=
  if Rltb (now - lastUpdateTime st) (minUpdateInterval o) then st else
  let reading0 := mkReading (mkPos (latitude c) (longitude c))
                    (coordAccuracy c) now (Fin 0) in
  let conf := if enableConfidenceFiltering o
              then calculateConfidence o st reading0 else Fin 1.0 in
  let reading := mkReading (pos reading0) (coordAccuracy c) now conf in
  if enableConfidenceFiltering o && js_lt conf (Fin 0.3) then st else
  if negb (isValidReading o st reading) then st else
  let rs := pushShift 20 (readings st) reading in
  let filtered := medianStage o rs reading in
  let '(ks, filtered') :=
    if enableKalmanFilter o
    then applyKalmanFilter (kalmanState st) (lastValidReading st)
           (mkReading filtered (accuracy reading) now conf)
    else (kalmanState st, filtered) in
  let stab :=
    match stabilizedPosition st with
    | Some sp =>
        mkPos (lat sp * (1 - smoothingFactor o) + lat filtered' * smoothingFactor o)
              (lng sp * (1 - smoothingFactor o) + lng filtered' * smoothingFactor o)
    | None => filtered'
    end in
  {| readings := rs;
     lastValidReading := Some reading;
     lastUpdateTime := now;
     stabilizedPosition := Some stab;
     kalmanState := ks;
     s_position := Some (pos reading);
     s_smoothedPosition := Some stab;
     s_accuracy := accuracy reading;
     s_confidence := conf;
     s_signalQuality := qualityOf (accuracy reading);
     s_error := None;
     s_isLoading := false |}.

End Stable.


(** ** The standard Kalman measurement update (spec, section 4.4)

    Written from the spec's words, to compare with [applyKalmanFilter]:
    the measurement picks the position, [H = [[1,0,0,0],[0,1,0,0]]], the
    innovation covariance is [S = H P H^T + R I], the gain
    [K = P H^T S^-1], and the covariance becomes [P' = P - K H P]. *)
Module KalmanSpec.

Definition col (B : list (list R)) (j : nat) : list R := map (fun row => nth j row 0) B.
Definition dot (u v : list R) : R :=
  fold_right Rplus 0 (map (fun ab => fst ab * snd ab) (combine u v)).
Definition mmul (A B : list (list R)) : list (list R) :=
  map (fun row => map (fun j => dot row (col B j)) (seq 0 (length (hd [] B)))) A.
Definition transpose (B : list (list R)) : list (list R) :=
  map (col B) (seq 0 (length (hd [] B))).
Definition mzip (f : R -> R -> R) (A B : list (list R)) : list (list R) :=
  map (fun rows => map (fun ab => f (fst ab) (snd ab)) (combine (fst rows) (snd rows)))
      (combine A B).
Definition inv2 (S : list (list R)) : list (list R) :=
  let a := Stable.entry S 0 0 in let b := Stable.entry S 0 1 in
  let c := Stable.entry S 1 0 in let d := Stable.entry S 1 1 in
  let det := a * d - b * c in
  [[d / det; - b / det]; [- c / det; a / det]].

Definition H : list (list R) := [[1; 0; 0; 0]; [0; 1; 0; 0]].

Definition covarianceUpdate (P : list (list R)) (Rn : R) : list (list R) :=
  let Ht := transpose H in
  let S := mzip Rplus (mmul (mmul H P) Ht) [[Rn; 0]; [0; Rn]] in
  let K := mmul (mmul P Ht) (inv2 S) in
  mzip Rminus P (mmul K (mmul H P)).

End KalmanSpec.


(** * useUltraStableGPS (src/src/hooks/useUltraStableGPS.ts) *)
Module Ultra.

Record Options := mkOptions {
  lockRadius : R; minimumAccuracy : R; bufferSize : nat; lockThreshold : nat;
  maxJumpDistance : R; updateInterval : R; enablePositionLock : bool;
  lockDuration : R }.

Definition defaultOptions : Options := mkOptions 2 5 15 5 15 1000 true 5000.

(** [interface GPSBuffer extends Position]. *)
Record GPSBuffer := mkBuf {
  pos : Position; accuracy : R; timestamp : R; confidence : R;
  isValidated : bool }.

(** What the [watchPosition] callback sees of React state: the values of
    [isLocked] and [lockedPosition] in the render whose [processGPSReading]
    was registered by [startTracking]. *)
Record View := mkView { v_isLocked : bool; v_lockedPosition : option Position }.

Record State := mkState {
  (* React state *)
  s_position : option Position;
  s_lockedPosition : option Position;
  s_isLocked : bool;
  s_accuracy : R;
  s_confidence : R;
  s_signalQuality : SignalQuality;
  s_error : option String.string;
  s_isLoading : bool;
  (* the callback registered with [watchPosition], if tracking *)
  watch : option View;
  (* refs *)
  gpsBuffer : list GPSBuffer;
  lockTimer : option R;              (* deadline of the pending [setTimeout] *)
  lastUpdateTime : R;
  consecutiveGoodReadings : nat;
  basePosition : option Position }.

Definition initialState : State :=
  mkState None None false 0 0 Poor None false None [] None 0 0 None.

(** Field updates used below. *)
Definition setBufferCount (st : State) (b : list GPSBuffer) (n : nat) : State :=
  mkState (s_position st) (s_lockedPosition st) (s_isLocked st) (s_accuracy st)
    (s_confidence st) (s_signalQuality st) (s_error st) (s_isLoading st)
    (watch st) b (lockTimer st) (lastUpdateTime st) n (basePosition st).

Definition setBase (st : State) (p : Position) : State :=
  mkState (s_position st) (s_lockedPosition st) (s_isLocked st) (s_accuracy st)
    (s_confidence st) (s_signalQuality st) (s_error st) (s_isLoading st)
    (watch st) (gpsBuffer st) (lockTimer st) (lastUpdateTime st)
    (consecutiveGoodReadings st) (Some p).

Definition setLock (st : State) (locked : bool) (lp : option Position) : State :=
  mkState (s_position st) lp locked (s_accuracy st)
    (s_confidence st) (s_signalQuality st) (s_error st) (s_isLoading st)
    (watch st) (gpsBuffer st) (lockTimer st) (lastUpdateTime st)
    (consecutiveGoodReadings st) (basePosition st).

Definition setTimer (st : State) (t : option R) : State :=
  mkState (s_position st) (s_lockedPosition st) (s_isLocked st) (s_accuracy st)
    (s_confidence st) (s_signalQuality st) (s_error st) (s_isLoading st)
    (watch st) (gpsBuffer st) t (lastUpdateTime st)
    (consecutiveGoodReadings st) (basePosition st).

Definition setWatch (st : State) (w : option View) (loading : bool) : State :=
  mkState (s_position st) (s_lockedPosition st) (s_isLocked st) (s_accuracy st)
    (s_confidence st) (s_signalQuality st) None loading
    w (gpsBuffer st) (lockTimer st) (lastUpdateTime st)
    (consecutiveGoodReadings st) (basePosition st).

(** The state updates at the end of [processGPSReading] (lines 240-252). *)
Definition publish (st : State) (p : Position) (acc conf now : R)
    (q : SignalQuality) : State :=
  mkState (Some p) (s_lockedPosition st) (s_isLocked st) acc conf q None false
    (watch st) (gpsBuffer st) (lockTimer st) now
    (consecutiveGoodReadings st) (basePosition st).

(** [calculateWeightedAverage] (lines 67-104); its [Date.now()] is the
    [now] of the enclosing callback. *)
Definition calculateWeightedAverage (o : Options) (buf : list GPSBuffer) (now : R)
    : option Position :=
  match buf with
  | [] => None
  | _ =>
    let recentReadings :=
      filter (fun r => Rltb (now - timestamp r) 10000 &&
                       Rleb (accuracy r) (minimumAccuracy o * 2) &&
                       isValidated r) buf in
    match recentReadings with
    | [] => None
    | _ =>
      let '(totalWeight, weightedLat, weightedLng) :=
        fold_left (fun acc r =>
          let '(tw, wl, wg) := acc in
          let accuracyWeight := 1 / Math_max (accuracy r) 1 in
          let timeWeight := 1 - (now - timestamp r) / 10000 in
          let weight := accuracyWeight * timeWeight * confidence r in
          (tw + weight, wl + lat (pos r) * weight, wg + lng (pos r) * weight))
          recentReadings (0, 0, 0) in
      if Reqb totalWeight 0 then None
      else Some (mkPos (weightedLat / totalWeight) (weightedLng / totalWeight))
    end
  end.

(** [validateGPSReading] (lines 107-137). *)
Definition validateGPSReading (o : Options) (st : State) (reading : GPSBuffer)
    : bool :=
  let consistency :=
    if (3 <=? length (gpsBuffer st))%nat then
      let recentReadings := slice_last 3 (gpsBuffer st) in
      let avgLat := fold_left (fun sum r => sum + lat (pos r)) recentReadings 0
                    / INR (length recentReadings) in
      let avgLng := fold_left (fun sum r => sum + lng (pos r)) recentReadings 0
                    / INR (length recentReadings) in
      let consistencyDistance :=
        calculateDistance (pos reading) (mkPos avgLat avgLng) in
      negb (Rltb (lockRadius o * 3) consistencyDistance)
    else true in
  if Rltb (minimumAccuracy o) (accuracy reading) then false
  else
    match basePosition st with
    | Some b =>
        if Rltb (maxJumpDistance o) (calculateDistance (pos reading) b) then false
        else consistency
    | None => consistency
    end.

(** [lockPosition] (lines 140-155): the timer is re-armed. *)
Definition lockPosition (o : Options) (st : State) (p : Position) (now : R)
    : State :=
  setTimer (setBase (setLock st true (Some p)) p) (Some (now + lockDuration o)).


(** The same score as a real number, which the buffer stores: it is the
    JavaScript value whenever [minimumAccuracy <> 50]
    ([readingConfidence_finite] below). *)
Definition readingConfidence (o : Options) (acc : R) : R :=
  Math_max 0.1 (Math_min 1.0 (1 - (acc - minimumAccuracy o) / (50 - minimumAccuracy o))).

(** [arr.slice(-k)] for any [k]: [slice(-0)] is the whole array. *)
Definition sliceNeg {A} (k : nat) (l : list A) : list A :=
  if (k =? 0)%nat then l else slice_last k l.

Definition qualityOf (acc : R) : SignalQuality :=
  if Rleb acc 5 then Excellent
  else if Rleb acc 10 then Good
  else if Rleb acc 20 then Fair
  else Poor.

(** [processGPSReading] (lines 158-258), run by the registered callback
    that sees [v] as [isLocked] / [lockedPosition]. *)
Definition processGPSReading (o : Options) (v : View) (st : State) (now : R)
    (c : Coords) : State :=
  if Rltb (now - lastUpdateTime st) (updateInterval o) then st else
  let acc := coordAccuracy c in
  let conf := readingConfidence o acc in
  let reading0 := mkBuf (mkPos (latitude c) (longitude c)) acc now conf false in
  let valid := validateGPSReading o st reading0 in
  if negb valid then st else
  let reading := mkBuf (mkPos (latitude c) (longitude c)) acc now conf valid in
  let buf := pushShift (bufferSize o) (gpsBuffer st) reading in
  let count := if Rleb acc (minimumAccuracy o)
               then S (consecutiveGoodReadings st) else 0%nat in
  let st1 := setBufferCount st buf count in
  match calculateWeightedAverage o buf now with
  | None => st1
  | Some stablePosition =>
    let st2 :=
      if enablePositionLock o && negb (v_isLocked v) &&
         (lockThreshold o <=? count)%nat then
        let recentReadings := sliceNeg (lockThreshold o) buf in
        let withinRadius :=
          forallb (fun r => Rleb (calculateDistance stablePosition (pos r))
                                 (lockRadius o)) recentReadings in
        if withinRadius then lockPosition o st1 stablePosition now else st1
      else st1 in
    let '(st3, finalPosition) :=
      match v_isLocked v, v_lockedPosition v, enablePositionLock o with
      | true, Some lockedPosition, true =>
          if Rleb (calculateDistance stablePosition lockedPosition) (lockRadius o)
          then (st2, lockedPosition)
          else (setBase (setLock st2 false None) stablePosition, stablePosition)
      | _, _, _ => (setBase st2 stablePosition, stablePosition)
      end in
    publish st3 finalPosition acc conf now (qualityOf acc)
  end.

(** Everything that can happen to the hook. *)
Inductive Event :=
  | ReadingArrives (now : R) (c : Coords)   (* the browser calls the watch callback *)
  | StartTracking                           (* [startTracking] of the current render *)
  | StopTracking
  | LockTimerFires (now : R)
  | ToggleLock (now : R)
  | ResetPosition.

Definition step (o : Options) (st : State) (e : Event) : State :=
  match e with
  | ReadingArrives now c =>
      match watch st with
      | Some v => processGPSReading o v st now c
      | None => st
      end
  | StartTracking =>
      setWatch st (Some (mkView (s_isLocked st) (s_lockedPosition st))) true
  | StopTracking =>
      let st' := setTimer (setLock st false (s_lockedPosition st)) None in
      mkState (s_position st') (s_lockedPosition st') (s_isLocked st')
        (s_accuracy st') (s_confidence st') (s_signalQuality st') (s_error st')
        false None (gpsBuffer st') (lockTimer st') (lastUpdateTime st')
        (consecutiveGoodReadings st') (basePosition st')
  | LockTimerFires now =>
      match lockTimer st with
      | Some d => if Rleb d now
                  then setTimer (setLock st false (s_lockedPosition st)) None
                  else st
      | None => st
      end
  | ToggleLock now =>
      if s_isLocked st then setLock st false None
      else match s_position st with
           | Some p => lockPosition o st p now
           | None => st
           end
  | ResetPosition =>
      let st' := setLock (setBufferCount st [] 0) false None in
      mkState (s_position st') (s_lockedPosition st') (s_isLocked st')
        (s_accuracy st') (s_confidence st') (s_signalQuality st') (s_error st')
        (s_isLoading st') (watch st') (gpsBuffer st') (lockTimer st')
        (lastUpdateTime st') (consecutiveGoodReadings st') None
  end.

Definition run (o : Options) (st : State) (es : list Event) : State :=
  fold_left (step o) es st.

End Ultra.

(** * useMobileGPS (src/src/hooks/useMobileGPS.ts) *)
Module Mobile.

(** The options read by [processGPSReading]; [highAccuracy], [timeout] and
    [maximumAge] only go to [watchPosition]. *)
Record Options := mkOptions { enableFilter : bool; accuracyThreshold : R }.

Definition defaultOptions : Options := mkOptions true 50.

(** [interface GPSReading extends Position]; the optional [speed] and
    [heading] copied from the browser are never read back. *)
Record GPSReading := mkReading { pos : Position; accuracy : R; timestamp : R }.

(** The [kalmanFilter] ref. *)
Record Kalman := mkKalman { Q : R; Rn : R; P : R; X : Position; K : R }.

Definition initialKalman : Kalman := mkKalman 0.00001 0.01 1 (mkPos 0 0) 0.

Record State := mkState {
  (* React state *)
  s_position : option Position;
  s_error : option String.string;
  s_isLoading : bool;
  s_accuracy : R;
  s_speed : R;
  s_heading : R;
  (* refs *)
  readings : list GPSReading;
  lastValidPosition : option GPSReading;
  kalmanFilter : Kalman }.

Definition initialState : State :=
  mkState None None false 0 0 0 [] None initialKalman.

Definition setReadings (st : State) (rs : list GPSReading) : State :=
  mkState (s_position st) (s_error st) (s_isLoading st) (s_accuracy st)
    (s_speed st) (s_heading st) rs (lastValidPosition st) (kalmanFilter st).

(** [applyKalmanFilter] (lines 48-69): the updated ref and the result. *)
Definition applyKalmanFilter (filter : Kalman) (lastValid : option GPSReading)
    (newReading : GPSReading) : Kalman * Position :=
  match lastValid with
  | None =>
      (mkKalman (Q filter) (Rn filter) (P filter) (pos newReading) (K filter),
       pos newReading)
  | Some _ =>
      let P1 := P filter + Q filter in
      let K1 := P1 / (P1 + Rn filter) in
      let smoothedLat := lat (X filter) + K1 * (lat (pos newReading) - lat (X filter)) in
      let smoothedLng := lng (X filter) + K1 * (lng (pos newReading) - lng (X filter)) in
      (mkKalman (Q filter) (Rn filter) ((1 - K1) * P1)
         (mkPos smoothedLat smoothedLng) K1,
       mkPos smoothedLat smoothedLng)
  end.

(** [isValidReading] (lines 86-105).  [distance / timeDiff] with
    [timeDiff = 0] is [Infinity] in JavaScript ([NaN] when the distance is
    0 too), so it exceeds 100 exactly when the distance is positive. *)
Definition isValidReading (o : Options) (lastValid : option GPSReading)
    (reading : GPSReading) : bool :=
  if Rltb (accuracyThreshold o) (accuracy reading) then false
  else
    match lastValid with
    | Some l =>
        let distance := calculateDistance (pos reading) (pos l) in
        let timeDiff := (timestamp reading - timestamp l) / 1000 in
        let tooFast := if Reqb timeDiff 0 then Rltb 0 distance
                       else Rltb 100 (distance / timeDiff) in
        negb tooFast
    | None => true
    end.

(** JavaScript's [%] on numbers: the remainder of the truncated quotient. *)
Definition jsTrunc (y : R) : R :=
  if Rle_dec 0 y then IZR (Int_part y) else - IZR (Int_part (- y)).

Definition js_rem (x m : R) : R := x - m * jsTrunc (x / m).

(** [processGPSReading] (lines 107-166), at time [now = Date.now()]. *)
Definition processGPSReading (o : Options) (st : State) (now : R) (c : Coords)
    : State :=
  let reading := mkReading (mkPos (latitude c) (longitude c)) (coordAccuracy c) now in
  let rs := pushShift 10 (readings st) reading in
  if negb (isValidReading o (lastValidPosition st) reading) then setReadings st rs
  else
  let '(kf, smoothedPosition) :=
    match lastValidPosition st with
    | Some _ =>
        if enableFilter o
        then applyKalmanFilter (kalmanFilter st) (lastValidPosition st) reading
        else (kalmanFilter st, mkPos (latitude c) (longitude c))
    | None => (kalmanFilter st, mkPos (latitude c) (longitude c))
    end in
  let '(speed, heading) :=
    match lastValidPosition st with
    | Some l =>
        let timeDiff := now - timestamp l in
        if Rltb 1000 timeDiff then
          let distance := calculateDistance smoothedPosition (pos l) in
          let calculatedSpeed := distance / (timeDiff / 1000) in
          let lat1Rad := lat (pos l) * PI / 180 in
          let lat2Rad := lat smoothedPosition * PI / 180 in
          let deltaLng := (lng smoothedPosition - lng (pos l)) * PI / 180 in
          let y := sin deltaLng * cos lat2Rad in
          let x := cos lat1Rad * sin lat2Rad -
                   sin lat1Rad * cos lat2Rad * cos deltaLng in
          (calculatedSpeed, js_rem (Math_atan2 y x * 180 / PI + 360) 360)
        else (s_speed st, s_heading st)
    | None => (s_speed st, s_heading st)
    end in
  mkState (Some smoothedPosition) None false (coordAccuracy c) speed heading rs
    (Some (mkReading smoothedPosition (coordAccuracy c) now)) kf.

End Mobile.

(** ** The three factors of the stable hook's confidence score

    [calculateConfidence] builds its score by successive multiplications;
    these are the factors the spec (section 4.3) names, each with the
    formula the code uses for it. *)
Module ConfidenceFactors.
Import Stable.

Definition accuracyFactor (o : Options) (reading : GPSReading) : JSNum :=
  if Rltb 0 (accuracy reading)
  then js_max (Fin 0.1) (js_sub 1 (js_div (accuracy reading - minAccuracy o)
                                          (maxAccuracy o - minAccuracy o)))
  else Fin 1.

Definition consistencyFactor (st : State) (reading : GPSReading) : R :=
  if (2 <? length (readings st))%nat then
    let recent := slice_last 3 (readings st) in
    let avgLat := fold_left (fun sum r => sum + lat (pos r)) recent 0
                  / INR (length recent) in
    let avgLng := fold_left (fun sum r => sum + lng (pos r)) recent 0
                  / INR (length recent) in
    Math_max 0.1 (1 - calculateDistance (pos reading) (mkPos avgLat avgLng) / 20)
  else 1.

(** 0.7 when the reading comes less than 1000 ms after the last accepted
    reading, 1 otherwise. *)
Definition frequencyFactor (st : State) (reading : GPSReading) : R :=
  match lastValidReading st with
  | Some lv => if Rltb (timestamp reading - timestamp lv) 1000 then 0.7 else 1
  | None => 1
  end.

End ConfidenceFactors.

(** ** Sequences of readings for the stable and mobile hooks

    Between [startTracking] and [stopTracking] the browser calls the
    registered [processGPSReading] once per reading.  [startTracking] and
    [stopTracking] of these two hooks only write [isLoading], [error] and
    [watchId], so any sequence of callback runs is a sequence of readings
    applied to the refs in turn. *)
Module StableRun.
Import Stable.

Definition run (o : Options) (st : State) (rs : list (R * Coords)) : State :=
  fold_left (fun st nc => processGPSReading o st (fst nc) (snd nc)) rs st.

(** Consecutive entries of [ts] lie at least [d] apart, in increasing
    order. *)
Fixpoint spacedBy (d : R) (ts : list R) : Prop :=
  match ts with
  | t1 :: ((t2 :: _) as rest) => d <= t2 - t1 /\ spacedBy d rest
  | _ => True
  end.

End StableRun.

Module MobileRun.
Import Mobile.

Definition run (o : Options) (st : State) (rs : list (R * Coords)) : State :=
  fold_left (fun st nc => processGPSReading o st (fst nc) (snd nc)) rs st.

End MobileRun.

(** * useVoiceNavigation (src/src/hooks/useVoiceNavigation.ts, lines 12-177)

    [window.speechSynthesis] is modelled by [queue], the utterances it
    holds ([cancel()] empties it, [speak(u)] appends [u]), and [spoken],
    every utterance ever handed to [speak].  [LANGUAGES] comes from
    [../data/languages], which is not among the sources: [selectedVoice]
    is the [voice] of the entry whose [code] is [selectedLanguage], if
    [LANGUAGES.find] finds one. *)
Module Voice.
Import Stdlib.Strings.String.
Local Open Scope string_scope.

Record Utterance := mkUtterance {
  u_text : String.string; u_lang : String.string;
  u_volume : R; u_rate : R; u_pitch : R }.

(** [Partial<VoiceNavigationOptions>]: the three fields [speak] reads. *)
Record SpeakOptions := mkSpeakOptions {
  o_volume : option R; o_rate : option R; o_pitch : option R }.

Definition noOptions : SpeakOptions := mkSpeakOptions None None None.

Record Env := mkEnv {
  selectedLanguage : String.string;
  selectedVoice : option String.string }.

Record State := mkState {
  isSpeaking : bool;
  volume : R;
  isEnabled : bool;
  lastAnnouncedInstruction : option String.string;
  lastDistanceAnnouncement : R;
  queue : list Utterance;
  spoken : list Utterance }.

Definition initialState : State := mkState false 0.8 true None 0 [] [].

Definition setLastInstruction (st : State) (i : String.string) : State :=
  mkState (isSpeaking st) (volume st) (isEnabled st) (Some i)
    (lastDistanceAnnouncement st) (queue st) (spoken st).

Definition setLastDistance (st : State) (d : R) : State :=
  mkState (isSpeaking st) (volume st) (isEnabled st)
    (lastAnnouncedInstruction st) d (queue st) (spoken st).

Definition setSpeaking (st : State) (b : bool) : State :=
  mkState b (volume st) (isEnabled st) (lastAnnouncedInstruction st)
    (lastDistanceAnnouncement st) (queue st) (spoken st).

Definition default {A} (d : A) (o : option A) : A :=
  match o with Some a => a | None => d end.

(** [speak] (lines 27-48); an [undefined] text is passed as [None]. *)
Definition speak (env : Env) (st : State) (text : option String.string)
    (options : SpeakOptions) : State :=
  match text with
  | None => st
  | Some t =>
    if negb (isEnabled st) || String.eqb t EmptyString then st else
    let st1 := mkState (isSpeaking st) (volume st) (isEnabled st)
                 (lastAnnouncedInstruction st) (lastDistanceAnnouncement st)
                 [] (spoken st) in
    match selectedVoice env with
    | None => st1
    | Some voice =>
        let u := mkUtterance t voice (default (volume st) (o_volume options))
                   (default 0.9 (o_rate options)) (default 1 (o_pitch options)) in
        mkState (isSpeaking st1) (volume st1) (isEnabled st1)
          (lastAnnouncedInstruction st1) (lastDistanceAnnouncement st1)
          [u] (app (spoken st1) [u])
    end
  end.

(** [stopSpeaking] (lines 50-53). *)
Definition stopSpeaking (st : State) : State :=
  mkState false (volume st) (isEnabled st) (lastAnnouncedInstruction st)
    (lastDistanceAnnouncement st) [] (spoken st).

(** [announceInstruction] (lines 55-60). *)
Definition announceInstruction (env : Env) (st : State) (instruction : String.string)
    : State :=
  if String.eqb instruction EmptyString then st else
  match lastAnnouncedInstruction st with
  | Some l => if String.eqb instruction l then st
              else setLastInstruction (speak env st (Some instruction) noOptions) instruction
  | None => setLastInstruction (speak env st (Some instruction) noOptions) instruction
  end.

(** The keys of the [announcements] object literal (lines 76-121). *)
Inductive Phrase := In1000 | In500 | In200 | In100 | In50 | Arrived.

Definition phrase (code : String.string) (p : Phrase) : String.string :=
  if String.eqb code "si" then
    match p with
    | In1000 => "කිලෝමීටර 1 කින්, " | In500 => "මීටර 500 කින්, "
    | In200 => "මීටර 200 කින්, " | In100 => "මීටර 100 කින්, "
    | In50 => "මීටර 50 කින්, " | Arrived => "ඔබ ඔබේ ගමනාන්තයට පැමිණ ඇත"
    end
  else if String.eqb code "ta" then
    match p with
    | In1000 => "1 கிலோமீட்டரில், " | In500 => "500 மீட்டரில், "
    | In200 => "200 மீட்டரில், " | In100 => "100 மீட்டரில், "
    | In50 => "50 மீட்டரில், " | Arrived => "நீங்கள் உங்கள் இலக்கை அடைந்துவிட்டீர்கள்"
    end
  else if String.eqb code "ja" then
    match p with
    | In1000 => "1キロメートル先で、" | In500 => "500メートル先で、"
    | In200 => "200メートル先で、" | In100 => "100メートル先で、"
    | In50 => "50メートル先で、" | Arrived => "目的地に到着しました"
    end
  else if String.eqb code "zh" then
    match p with
    | In1000 => "1公里后，" | In500 => "500米后，" | In200 => "200米后，"
    | In100 => "100米后，" | In50 => "50米后，" | Arrived => "您已到达目的地"
    end
  else
    match p with
    | In1000 => "In 1 kilometer, " | In500 => "In 500 meters, "
    | In200 => "In 200 meters, " | In100 => "In 100 meters, "
    | In50 => "In 50 meters, " | Arrived => "You have arrived at your destination"
    end.

Definition languageCodes : list String.string := ["en"; "si"; "ta"; "ja"; "zh"].

(** The names an object literal inherits from [Object.prototype]:
    [announcements[name]] is then a function or an object, which is truthy,
    and has no keys [1000], ... or [arrived]. *)
Definition prototypeKeys : list String.string :=
  ["constructor"; "__proto__"; "__defineGetter__"; "__defineSetter__";
   "__lookupGetter__"; "__lookupSetter__"; "hasOwnProperty"; "isPrototypeOf";
   "propertyIsEnumerable"; "toString"; "toLocaleString"; "valueOf"].

Definition memb (s : String.string) (l : list String.string) : bool :=
  existsb (String.eqb s) l.

(** [announcements[language] || announcements.en]: [Some code] for a table
    of the literal, [None] for an inherited member. *)
Definition langAnnouncements (language : String.string) : option String.string :=
  if memb language languageCodes then Some language
  else if memb language prototypeKeys then None
  else Some "en".

Definition thresholds : list (R * Phrase) :=
  [(1000, In1000); (500, In500); (200, In200); (100, In100); (50, In50)].

(** [getDistanceAnnouncement] (lines 75-132); [None] is [undefined]. *)
Definition getDistanceAnnouncement (distance : R) (language : String.string)
    : option String.string :=
  let table := langAnnouncements language in
  let get p := option_map (fun code => phrase code p) table in
  if Rleb distance 25 then get Arrived else
  let fix loop ts :=
    match ts with
    | [] => Some EmptyString
    | (threshold, p) :: ts' => if Rleb distance threshold then get p else loop ts'
    end in
  loop thresholds.

(** [announceDistance] (lines 62-73). *)
Definition announceDistance (env : Env) (st : State) (distance : R) : State :=
  let fix loop ts :=
    match ts with
    | [] => st
    | (threshold, _) :: ts' =>
        if Rleb distance threshold && Rltb threshold (lastDistanceAnnouncement st)
        then
          let distanceText := getDistanceAnnouncement distance (selectedLanguage env) in
          setLastDistance (speak env st distanceText noOptions) distance
        else loop ts'
    end in
  loop thresholds.

(** [adjustVolume] (lines 156-158), also [useSpeech]'s (lines 622-624). *)
Definition clampVolume (newVolume : R) : R := Math_max 0 (Math_min 1 newVolume).

Definition adjustVolume (st : State) (newVolume : R) : State :=
  mkState (isSpeaking st) (clampVolume newVolume) (isEnabled st)
    (lastAnnouncedInstruction st) (lastDistanceAnnouncement st) (queue st) (spoken st).

(** [toggleEnabled] (lines 160-165): [isEnabled] is the value of the render
    the handler belongs to, read after [setIsEnabled] has been called. *)
Definition toggleEnabled (st : State) : State :=
  let st1 := mkState (isSpeaking st) (volume st) (negb (isEnabled st))
               (lastAnnouncedInstruction st) (lastDistanceAnnouncement st)
               (queue st) (spoken st) in
  if negb (isEnabled st) then stopSpeaking st1 else st1.

(** The bodies of the two effects (lines 135-154). *)
Definition navigationEffect (env : Env) (st : State) (isNavigating : bool)
    (currentInstruction : option String.string) (remainingDistance : R) : State :=
  match currentInstruction with
  | Some i =>
      if negb isNavigating || String.eqb i EmptyString then st else
      let st1 := announceInstruction env st i in
      if Rltb 0 remainingDistance then announceDistance env st1 remainingDistance
      else st1
  | None => st
  end.

Definition arrivalEffect (env : Env) (st : State) (isNavigating : bool)
    (remainingDistance : R) : State :=
  if isNavigating && Rleb remainingDistance 25 && Rltb 0 remainingDistance
  then speak env st (getDistanceAnnouncement 0 (selectedLanguage env)) noOptions
  else st.

(** Everything that runs code of the hook: the returned handlers, the two
    effects, and the [onstart] / [onend] / [onerror] callbacks of an
    utterance. *)
Inductive Event :=
  | Speak (text : option String.string) (options : SpeakOptions)
  | StopSpeaking
  | AdjustVolume (v : R)
  | ToggleEnabled
  | AnnounceInstruction (i : String.string)
  | AnnounceDistance (d : R)
  | NavigationEffect (isNavigating : bool) (currentInstruction : option String.string)
      (remainingDistance : R)
  | ArrivalEffect (isNavigating : bool) (remainingDistance : R)
  | UtteranceStart
  | UtteranceEnd.

Definition step (env : Env) (st : State) (e : Event) : State :=
  match e with
  | Speak t o => speak env st t o
  | StopSpeaking => stopSpeaking st
  | AdjustVolume v => adjustVolume st v
  | ToggleEnabled => toggleEnabled st
  | AnnounceInstruction i => announceInstruction env st i
  | AnnounceDistance d => announceDistance env st d
  | NavigationEffect n i d => navigationEffect env st n i d
  | ArrivalEffect n d => arrivalEffect env st n d
  | UtteranceStart => setSpeaking st true
  | UtteranceEnd => setSpeaking st false
  end.

Definition run (env : Env) (st : State) (es : list Event) : State :=
  fold_left (step env) es st.

End Voice.

(** * useSpeech (src/src/hooks/useVoiceNavigation.ts, lines 589-634) *)
Module Speech.

Record State := mkState {
  isSpeaking : bool; volume : R; queue : list Voice.Utterance;
  spoken : list Voice.Utterance }.

Definition initialState : State := mkState false 0.8 [] [].

(** [speak] (lines 595-613); [isSupported] is ['speechSynthesis' in window]. *)
Definition speak (isSupported : bool) (st : State) (text lang : String.string)
    : State :=
  if negb isSupported then st else
  let u := Voice.mkUtterance text lang (volume st) 0.9 1 in
  mkState (isSpeaking st) (volume st) [u] (app (spoken st) [u]).

Definition stop (isSupported : bool) (st : State) : State :=
  if isSupported then mkState false (volume st) [] (spoken st) else st.

Definition adjustVolume (st : State) (newVolume : R) : State :=
  mkState (isSpeaking st) (Voice.clampVolume newVolume) (queue st) (spoken st).

Inductive Event :=
  | Speak (text lang : String.string)
  | Stop
  | AdjustVolume (v : R)
  | UtteranceStart
  | UtteranceEnd.

Definition step (isSupported : bool) (st : State) (e : Event) : State :=
  match e with
  | Speak t l => speak isSupported st t l
  | Stop => stop isSupported st
  | AdjustVolume v => adjustVolume st v
  | UtteranceStart => mkState true (volume st) (queue st) (spoken st)
  | UtteranceEnd => mkState false (volume st) (queue st) (spoken st)
  end.

Definition run (isSupported : bool) (st : State) (es : list Event) : State :=
  fold_left (step isSupported) es st.

End Speech.

(** * Proofs *)

(** ** Number helpers *)

Lemma Rltb_spec x y : reflect (x < y) (Rltb x y).
Proof. unfold Rltb; destruct (Rlt_dec x y); constructor; auto. Qed.

Lemma Rleb_spec x y : reflect (x <= y) (Rleb x y).
Proof. unfold Rleb; destruct (Rle_dec x y); constructor; auto. Qed.

Lemma Reqb_spec x y : reflect (x = y) (Reqb x y).
Proof. unfold Reqb; destruct (Req_dec_T x y); constructor; auto. Qed.

(** Settle every real comparison of the goal whose outcome [lra] knows. *)
Ltac decide_R :=
  repeat match goal with
  | |- context [Rltb ?x ?y] =>
      destruct (Rltb_spec x y); try (exfalso; lra)
  | |- context [Rleb ?x ?y] =>
      destruct (Rleb_spec x y); try (exfalso; lra)
  | |- context [Reqb ?x ?y] =>
      destruct (Reqb_spec x y); try (exfalso; lra)
  end.

Lemma Math_max_l a b : b <= a -> Math_max a b = a.
Proof. intros; unfold Math_max; decide_R; lra. Qed.

Lemma Math_max_r a b : a <= b -> Math_max a b = b.
Proof. intros; unfold Math_max; decide_R; lra. Qed.

Lemma Math_min_l a b : a <= b -> Math_min a b = a.
Proof. intros; unfold Math_min; decide_R; lra. Qed.

Lemma Math_min_r a b : b <= a -> Math_min a b = b.
Proof. intros; unfold Math_min; decide_R; lra. Qed.

Lemma Math_max_ge_l a b : a <= Math_max a b.
Proof. unfold Math_max; decide_R; lra. Qed.

Lemma Math_min_le_l a b : Math_min a b <= a.
Proof. unfold Math_min; decide_R; lra. Qed.


Lemma Math_max_ge_r a b : b <= Math_max a b.
Proof. unfold Math_max; decide_R; lra. Qed.

Lemma Rltb_true x y : x < y -> Rltb x y = true.
Proof. intros H; decide_R; reflexivity. Qed.

Lemma Rltb_false x y : y <= x -> Rltb x y = false.
Proof. intros H; decide_R; reflexivity. Qed.

Lemma Rleb_true x y : x <= y -> Rleb x y = true.
Proof. intros H; decide_R; reflexivity. Qed.

Lemma Rleb_false x y : y < x -> Rleb x y = false.
Proof. intros H; decide_R; reflexivity. Qed.

Lemma Reqb_false x y : x <> y -> Reqb x y = false.
Proof. intros H; destruct (Reqb_spec x y); [contradiction|reflexivity]. Qed.

(** ** Haversine distance *)

Lemma Math_atan2_pos y x : 0 < x -> Math_atan2 y x = atan (y / x).
Proof. intros Hx; unfold Math_atan2; decide_R; reflexivity. Qed.

Lemma haversine_a_sym p q :
  sin ((lat q - lat p) * PI / 180 / 2) * sin ((lat q - lat p) * PI / 180 / 2) +
  cos (lat p * PI / 180) * cos (lat q * PI / 180) *
  sin ((lng q - lng p) * PI / 180 / 2) * sin ((lng q - lng p) * PI / 180 / 2)
  =
  sin ((lat p - lat q) * PI / 180 / 2) * sin ((lat p - lat q) * PI / 180 / 2) +
  cos (lat q * PI / 180) * cos (lat p * PI / 180) *
  sin ((lng p - lng q) * PI / 180 / 2) * sin ((lng p - lng q) * PI / 180 / 2).
Proof.
  replace ((lat p - lat q) * PI / 180 / 2)
    with (- ((lat q - lat p) * PI / 180 / 2)) by field.
  replace ((lng p - lng q) * PI / 180 / 2)
    with (- ((lng q - lng p) * PI / 180 / 2)) by field.
  rewrite !sin_neg; ring.
Qed.

(** On a meridian the Haversine formula gives the arc length exactly. *)
Lemma calculateDistance_meridian a b :
  Rabs (b - a) < 180 ->
  calculateDistance (mkPos a 0) (mkPos b 0) = 6371000 * (Rabs (b - a) * PI / 180).
Proof.
  intros Hab. unfold calculateDistance; cbn [lat lng].
  set (h := (b - a) * PI / 180 / 2).
  assert (Hpi := PI_RGT_0).
  assert (Habs : Rabs h = Rabs (b - a) * (PI / 360)).
  { replace h with ((b - a) * (PI / 360)) by (unfold h; field).
    rewrite Rabs_mult, (Rabs_pos_eq (PI / 360)) by lra. reflexivity. }
  assert (Hh : Rabs h < PI / 2).
  { rewrite Habs.
    assert (Rabs (b - a) * PI < 180 * PI) by (apply Rmult_lt_compat_r; lra).
    lra. }
  replace ((0 - 0) * PI / 180 / 2) with 0 by field.
  rewrite sin_0, !Rmult_0_r, Rplus_0_r.
  assert (Hc : 0 < cos h) by (apply cos_gt_0; apply Rabs_def2 in Hh; lra).
  assert (Hsq : sqrt (sin h * sin h) = Rabs (sin h)).
  { rewrite <- sqrt_Rsqr_abs; reflexivity. }
  assert (Hcq : sqrt (1 - sin h * sin h) = cos h).
  { replace (1 - sin h * sin h) with (Rsqr (cos h)).
    - rewrite sqrt_Rsqr_abs, Rabs_pos_eq; lra.
    - rewrite <- (sin2_cos2 h); unfold Rsqr; ring. }
  rewrite Hsq, Hcq, Math_atan2_pos by exact Hc.
  assert (Hat : atan (Rabs (sin h) / cos h) = Rabs h).
  { destruct (Rle_or_lt 0 h) as [H0|H0].
    - rewrite (Rabs_pos_eq h) in Hh |- * by lra.
      rewrite Rabs_pos_eq.
      + apply atan_tan. lra.
      + apply sin_ge_0; lra.
    - rewrite (Rabs_left h) in Hh |- * by lra.
      rewrite Rabs_left1.
      + replace (- sin h / cos h) with (tan (- h)).
        * apply atan_tan. lra.
        * unfold tan. rewrite sin_neg, cos_neg. field. lra.
      + assert (0 < sin (- h)) by (apply sin_gt_0; lra).
        rewrite sin_neg in H. lra. }
  rewrite Hat, Habs. field.
Qed.

(** C8.  The Haversine distance is symmetric and vanishes on equal points. *)
Theorem calculateDistance_sym_refl :
  (forall a b : Position, calculateDistance a b = calculateDistance b a) /\
  (forall a : Position, calculateDistance a a = 0).
Proof.
  split.
  - intros a b. unfold calculateDistance. rewrite haversine_a_sym. reflexivity.
  - intros a. unfold calculateDistance.
    replace ((lat a - lat a) * PI / 180 / 2) with 0 by field.
    replace ((lng a - lng a) * PI / 180 / 2) with 0 by field.
    rewrite sin_0, !Rmult_0_r, Rplus_0_r, Rminus_0_r, sqrt_0, sqrt_1.
    rewrite Math_atan2_pos by lra.
    unfold Rdiv. rewrite Rmult_0_l, atan_0. ring.
Qed.

(** The distance from a point to itself. *)
Lemma calculateDistance_self a : calculateDistance a a = 0.
Proof.
  unfold calculateDistance.
  replace ((lat a - lat a) * PI / 180 / 2) with 0 by field.
  replace ((lng a - lng a) * PI / 180 / 2) with 0 by field.
  rewrite sin_0, !Rmult_0_r, Rplus_0_r, Rminus_0_r, sqrt_0, sqrt_1.
  rewrite Math_atan2_pos by lra.
  unfold Rdiv. rewrite Rmult_0_l, atan_0. ring.
Qed.

Lemma calculateDistance_sym a b : calculateDistance a b = calculateDistance b a.
Proof. unfold calculateDistance. rewrite haversine_a_sym. reflexivity. Qed.

(** Two points of the zero meridian, [b] north of [a]. *)
Lemma calculateDistance_meridian_le a b :
  a <= b -> b - a < 180 ->
  calculateDistance (mkPos a 0) (mkPos b 0) = 6371000 * ((b - a) * PI / 180) /\
  calculateDistance (mkPos b 0) (mkPos a 0) = 6371000 * ((b - a) * PI / 180).
Proof.
  intros H1 H2.
  assert (E : calculateDistance (mkPos a 0) (mkPos b 0) =
              6371000 * ((b - a) * PI / 180)).
  { rewrite calculateDistance_meridian by (rewrite Rabs_pos_eq; lra).
    rewrite Rabs_pos_eq by lra. reflexivity. }
  split; [exact E|]. rewrite calculateDistance_sym. exact E.
Qed.

(** [3 < PI <= 4]. *)
Lemma PI_bounds : 3 < PI <= 4.
Proof. pose proof PI2_3_2. pose proof PI_4. lra. Qed.

(** ** Lists *)

Lemma Forall_skipn {A} (Pr : A -> Prop) n l :
  Forall Pr l -> Forall Pr (skipn n l).
Proof.
  revert l; induction n as [|n IH]; intros l Hl; [exact Hl|].
  destruct l as [|x l]; [constructor|]. simpl. inversion Hl; auto.
Qed.

(** A running sum [fold_left (sum, r) => sum + f(r)] over equal terms. *)
Lemma fold_sum_const {A} (f : A -> R) a l s :
  Forall (fun r => f r = a) l ->
  fold_left (fun sum r => sum + f r) l s = s + INR (length l) * a.
Proof.
  revert s; induction l as [|x l IH]; intros s Hl; cbn [fold_left length].
  - simpl. ring.
  - inversion Hl as [|? ? Hx Hl']; subst. rewrite IH by exact Hl'.
    rewrite S_INR. ring.
Qed.

Lemma avg_const {A} (f : A -> R) a l :
  Forall (fun r => f r = a) l -> l <> [] ->
  fold_left (fun sum r => sum + f r) l 0 / INR (length l) = a.
Proof.
  intros Hl Hne. rewrite (fold_sum_const f a) by exact Hl.
  assert (0 < INR (length l)).
  { apply lt_0_INR. destruct l; [contradiction|simpl; lia]. }
  field. lra.
Qed.

Lemma Forall_pushShift {A} (Pr : A -> Prop) cap l r :
  Forall Pr l -> Pr r -> Forall Pr (pushShift cap l r).
Proof.
  intros Hl Hr. unfold pushShift.
  assert (Hall : Forall Pr (l ++ [r])) by (apply Forall_app; auto).
  destruct (cap <? length (l ++ [r]))%nat; [|exact Hall].
  destruct (l ++ [r]); simpl; [constructor|]. inversion Hall; auto.
Qed.

Lemma pushShift_last {A} cap (l : list A) r :
  (0 < cap)%nat -> exists pre, pushShift cap l r = pre ++ [r].
Proof.
  intros Hcap. unfold pushShift.
  destruct (cap <? length (l ++ [r]))%nat eqn:E.
  - apply Nat.ltb_lt in E. destruct l as [|a l']; simpl in *.
    + lia.
    + exists l'. reflexivity.
  - exists l. reflexivity.
Qed.

Lemma slice_last_app_last {A} k (pre : list A) r :
  (0 < k)%nat -> exists pre', slice_last k (pre ++ [r]) = pre' ++ [r].
Proof.
  intros Hk. unfold slice_last. rewrite length_app; simpl.
  assert (Hle : (length pre + 1 - k <= length pre)%nat) by lia.
  rewrite skipn_app.
  replace (length pre + 1 - k - length pre)%nat with 0%nat by lia.
  simpl. exists (skipn (length pre + 1 - k) pre). reflexivity.
Qed.


(** ** Sorting and medians *)

Lemma filter_length_insertR (p : R -> bool) v l :
  length (filter p (insertR v l)) = length (filter p (v :: l)).
Proof.
  induction l as [|w l IH]; simpl; [reflexivity|].
  destruct (Rleb v w); simpl; [reflexivity|].
  simpl in IH. destruct (p w); simpl; rewrite IH; destruct (p v); simpl; lia.
Qed.

Lemma filter_length_sortR (p : R -> bool) l :
  length (filter p (sortR l)) = length (filter p l).
Proof.
  induction l as [|v l IH]; simpl; [reflexivity|].
  rewrite filter_length_insertR. simpl. destruct (p v); simpl; rewrite IH; reflexivity.
Qed.

Lemma length_sortR l : length (sortR l) = length l.
Proof.
  pose proof (filter_length_sortR (fun _ => true) l) as H.
  rewrite !filter_true in H. exact H.
Qed.

Lemma In_insertR m v l : In m (insertR v l) <-> In m (v :: l).
Proof.
  induction l as [|w l IH]; simpl; [tauto|].
  destruct (Rleb v w); simpl; [tauto|]. rewrite IH. simpl. tauto.
Qed.

Lemma In_sortR m l : In m (sortR l) <-> In m l.
Proof.
  induction l as [|v l IH]; simpl; [tauto|].
  rewrite In_insertR. simpl. rewrite IH. tauto.
Qed.

Lemma Sorted_insertR v l : Sorted Rle l -> Sorted Rle (insertR v l).
Proof.
  induction 1 as [|w l Hs IH Hhd]; simpl; [repeat constructor|].
  destruct (Rleb_spec v w) as [Hvw|Hvw].
  - constructor; [constructor; auto|constructor; exact Hvw].
  - constructor; [exact IH|].
    destruct l as [|u l]; simpl.
    + constructor. lra.
    + destruct (Rleb v u); constructor; [lra|]. inversion Hhd; auto.
Qed.

Lemma Sorted_sortR l : Sorted Rle (sortR l).
Proof. induction l; simpl; [constructor|apply Sorted_insertR; auto]. Qed.

Lemma filter_all_false {A} (p : A -> bool) l :
  (forall v, In v l -> p v = false) -> filter p l = [].
Proof.
  induction l as [|a l IH]; simpl; intros H; [reflexivity|].
  rewrite H by auto. apply IH. auto.
Qed.

(** In a sorted list [l1 ++ m :: l2], the values below [m] lie in [l1] and
    the values above [m] lie in [l2]. *)
Lemma sorted_split_counts l1 m l2 :
  StronglySorted Rle (l1 ++ m :: l2) ->
  (length (filter (fun v => Rltb v m) (l1 ++ m :: l2)) <= length l1)%nat /\
  (length (filter (fun v => Rltb m v) (l1 ++ m :: l2)) <= length l2)%nat.
Proof.
  intros Hs.
  assert (Hle1 : forall v, In v l1 -> v <= m).
  { clear - Hs. induction l1 as [|a l1 IH]; simpl; [tauto|].
    inversion Hs as [|? ? Hs' Hall]; subst.
    intros v [<-|Hv]; [|auto].
    rewrite Forall_forall in Hall. apply Hall. apply in_or_app. right; left; auto. }
  assert (Hle2 : forall v, In v l2 -> m <= v).
  { clear - Hs. induction l1 as [|a l1 IH]; simpl in Hs.
    - inversion Hs as [|? ? _ Hall]; subst. rewrite Forall_forall in Hall. auto.
    - inversion Hs; auto. }
  rewrite !filter_app. simpl. rewrite !length_app.
  destruct (Rltb_spec m m) as [Hmm|_]; [lra|].
  split.
  - assert (filter (fun v => Rltb v m) l2 = []) as ->.
    { apply filter_all_false. 
      intros v Hv. destruct (Rltb_spec v m); auto. specialize (Hle2 v Hv). lra. }
    simpl. rewrite Nat.add_0_r. apply filter_length_le.
  - assert (filter (fun v => Rltb m v) l1 = []) as ->.
    { apply filter_all_false.
      intros v Hv. destruct (Rltb_spec m v); auto. specialize (Hle1 v Hv). lra. }
    simpl. apply filter_length_le.
Qed.

(** The middle element [sorted[floor(n/2)]] is a median. *)
Lemma middle_isMedian l :
  (0 < length l)%nat ->
  isMedian l (nth (length (sortR l) / 2) (sortR l) 0).
Proof.
  intros Hn. set (s := sortR l).
  assert (Hlen : length s = length l) by apply length_sortR.
  assert (Hk : (length s / 2 < length s)%nat) by (apply Nat.div_lt; lia).
  destruct (nth_split s 0 Hk) as (l1 & l2 & Hsplit & Hl1).
  set (m := nth (length s / 2) s 0) in *.
  assert (Hss : StronglySorted Rle s) by (apply Sorted_StronglySorted;
    [intros a b c; lra|apply Sorted_sortR]).
  rewrite Hsplit in Hss.
  destruct (sorted_split_counts l1 m l2 Hss) as [H1 H2].
  rewrite <- Hsplit in H1, H2.
  unfold s in H1, H2. rewrite !filter_length_sortR in H1, H2.
  assert (Hl : length s = (length l1 + S (length l2))%nat)
    by (rewrite Hsplit, length_app; reflexivity).
  assert (Hdiv : (2 * (length s / 2) <= length s)%nat) by (apply Nat.Div0.mul_div_le).
  assert (Hdiv2 : (length s <= 2 * (length s / 2) + 1)%nat).
  { pose proof (Nat.div_mod (length s) 2 ltac:(lia)).
    pose proof (Nat.mod_upper_bound (length s) 2 ltac:(lia)). lia. }
  split; [|split; lia].
  apply In_sortR. fold s. rewrite Hsplit. apply in_or_app. right; left; reflexivity.
Qed.

(** ** useStableGPS *)

#[local] Arguments Stable.calculateConfidence : simpl never.

(** ** Scores in [JSNum] *)

Lemma js_mul_one_l n : js_mul (Fin 1) n = n.
Proof.
  destruct n; simpl; try reflexivity.
  - f_equal. ring.
  - unfold js_mul_inf. rewrite Rltb_true by lra. reflexivity.
  - unfold js_mul_inf. rewrite Rltb_true by lra. reflexivity.
Qed.

Lemma js_mul_one_r n : js_mul n (Fin 1) = n.
Proof.
  destruct n; simpl; try reflexivity.
  - f_equal. ring.
  - unfold js_mul_inf. rewrite Rltb_true by lra. reflexivity.
  - unfold js_mul_inf. rewrite Rltb_true by lra. reflexivity.
Qed.

Lemma js_mul_NaN n : js_mul NaN n = NaN.
Proof. destruct n; reflexivity. Qed.

(** A positive score: a positive finite number or [Infinity]. *)
Definition posNum (n : JSNum) : Prop :=
  (exists a, n = Fin a /\ 0 < a) \/ n = PosInf.

Lemma posNum_mul n b : posNum n -> 0 < b -> posNum (js_mul n (Fin b)).
Proof.
  intros [(a & -> & Ha)| ->] Hb.
  - left. exists (a * b). split; [reflexivity|]. apply Rmult_lt_0_compat; lra.
  - right. simpl. unfold js_mul_inf. rewrite Rltb_true by lra. reflexivity.
Qed.

Lemma clamp_posNum n :
  posNum n -> exists c, js_max (Fin 0.1) (js_min (Fin 1.0) n) = Fin c /\ 0.1 <= c <= 1.
Proof.
  intros [(a & -> & Ha)| ->]; simpl.
  - eexists. split; [reflexivity|].
    pose proof (Math_min_le_l 1.0 a). pose proof (Math_max_ge_l 0.1 (Math_min 1.0 a)).
    split; [lra|]. unfold Math_max. destruct (Rltb_spec 0.1 (Math_min 1.0 a)); lra.
  - eexists. split; [reflexivity|].
    unfold Math_max. destruct (Rltb_spec 0.1 1.0); lra.
Qed.

Lemma clamp_NaN : js_max (Fin 0.1) (js_min (Fin 1.0) NaN) = NaN.
Proof. reflexivity. Qed.

(** The accuracy factor is [NaN] exactly when the accuracy is positive and
    equal to both [minAccuracy] and [maxAccuracy] ([0 / 0]); otherwise it
    is positive: [0.1] above a degenerate range, [Infinity] below it. *)
Lemma accuracyFactor_cases o r :
  let deg := 0 < Stable.accuracy r /\ Stable.maxAccuracy o = Stable.minAccuracy o /\
             Stable.accuracy r = Stable.minAccuracy o in
  (deg /\ ConfidenceFactors.accuracyFactor o r = NaN) \/
  (~ deg /\ posNum (ConfidenceFactors.accuracyFactor o r)).
Proof.
  cbv zeta. unfold ConfidenceFactors.accuracyFactor.
  destruct (Rltb_spec 0 (Stable.accuracy r)) as [Ha|Ha];
    [|right; split; [intros (H & _); lra|left; exists 1; split; [reflexivity|lra]]].
  unfold js_div.
  destruct (Reqb_spec (Stable.maxAccuracy o - Stable.minAccuracy o) 0) as [Hd|Hd].
  - destruct (Rltb_spec 0 (Stable.accuracy r - Stable.minAccuracy o)) as [Hp|Hp].
    + right. split; [intros (_ & _ & H); lra|].
      left. exists 0.1. split; [reflexivity|lra].
    + destruct (Rltb_spec (Stable.accuracy r - Stable.minAccuracy o) 0) as [Hn|Hn].
      * right. split; [intros (_ & _ & H); lra|]. right. reflexivity.
      * left. split; [repeat split; lra|reflexivity].
  - right. split; [intros (_ & H & _); lra|].
    left. eexists. split; [reflexivity|].
    pose proof (Math_max_ge_l 0.1 (1 - (Stable.accuracy r - Stable.minAccuracy o) /
                                      (Stable.maxAccuracy o - Stable.minAccuracy o))).
    lra.
Qed.

(** [calculateConfidence] is its three factors multiplied and clamped. *)
Lemma calculateConfidence_factors o st r :
  Stable.calculateConfidence o st r =
    js_max (Fin 0.1) (js_min (Fin 1.0)
      (js_mul (js_mul (ConfidenceFactors.accuracyFactor o r)
                      (Fin (ConfidenceFactors.consistencyFactor st r)))
              (Fin (ConfidenceFactors.frequencyFactor st r)))).
Proof.
  unfold Stable.calculateConfidence, ConfidenceFactors.accuracyFactor,
    ConfidenceFactors.consistencyFactor, ConfidenceFactors.frequencyFactor.
  cbv zeta. replace 1.0 with 1 by lra.
  rewrite js_mul_one_l.
  destruct (Rltb 0 (Stable.accuracy r)), (2 <? length (Stable.readings st))%nat,
    (Stable.lastValidReading st) as [lv|];
    try destruct (Rltb (Stable.timestamp r - Stable.timestamp lv) 1000);
    rewrite ?js_mul_one_r; reflexivity.
Qed.

(** The score is a number in [[0.1, 1]], except in the degenerate case of
    [accuracyFactor_cases], where it is [NaN]. *)
Lemma calculateConfidence_cases o st r :
  let deg := 0 < Stable.accuracy r /\ Stable.maxAccuracy o = Stable.minAccuracy o /\
             Stable.accuracy r = Stable.minAccuracy o in
  (deg /\ Stable.calculateConfidence o st r = NaN) \/
  (~ deg /\ exists c, Stable.calculateConfidence o st r = Fin c /\ 0.1 <= c <= 1).
Proof.
  cbv zeta. rewrite calculateConfidence_factors.
  assert (Hc : 0 < ConfidenceFactors.consistencyFactor st r).
  { unfold ConfidenceFactors.consistencyFactor.
    destruct (2 <? _)%nat; [|lra].
    pose proof (Math_max_ge_l 0.1
      (1 - calculateDistance (Stable.pos r) (mkPos
        (fold_left (fun sum r0 => sum + lat (Stable.pos r0))
           (slice_last 3 (Stable.readings st)) 0 /
         INR (length (slice_last 3 (Stable.readings st))))
        (fold_left (fun sum r0 => sum + lng (Stable.pos r0))
           (slice_last 3 (Stable.readings st)) 0 /
         INR (length (slice_last 3 (Stable.readings st))))) / 20)).
    lra. }
  assert (Hf : 0 < ConfidenceFactors.frequencyFactor st r).
  { unfold ConfidenceFactors.frequencyFactor.
    destruct (Stable.lastValidReading st); [destruct (Rltb _ _)|]; lra. }
  destruct (accuracyFactor_cases o r) as [[Hd E]|[Hd Hp]].
  - left. split; [exact Hd|]. rewrite E, !js_mul_NaN. reflexivity.
  - right. split; [exact Hd|]. apply clamp_posNum.
    apply posNum_mul; [|exact Hf]. apply posNum_mul; [exact Hp|exact Hc].
Qed.

#[local] Arguments Stable.isValidReading : simpl never.
#[local] Arguments Stable.applyKalmanFilter : simpl never.
#[local] Arguments Stable.medianStage : simpl never.
#[local] Arguments Stable.qualityOf : simpl never.
#[local] Arguments calculateDistance : simpl never.

Module StableProofs.
Import Stable.

Definition readingOf (c : Coords) (now : R) (conf : JSNum) : GPSReading :=
  mkReading (mkPos (latitude c) (longitude c)) (coordAccuracy c) now conf.

(** A reading the validator refuses leaves every ref and every piece of
    React state as it was. *)
Lemma process_invalid_unchanged o st now c :
  (forall conf, isValidReading o st (readingOf c now conf) = false) ->
  processGPSReading o st now c = st.
Proof.
  intros H. unfold processGPSReading.
  destruct (Rltb _ _); [reflexivity|]. simpl.
  destruct (enableConfidenceFiltering o && js_lt _ (Fin 0.3)); [reflexivity|].
  unfold readingOf in H. rewrite H. reflexivity.
Qed.

Lemma isValidReading_acc_low o st r :
  accuracy r < minAccuracy o -> isValidReading o st r = false.
Proof. intros H. unfold isValidReading. decide_R; reflexivity. Qed.

Lemma isValidReading_acc_high o st r :
  maxAccuracy o < accuracy r -> isValidReading o st r = false.
Proof.
  intros H. unfold isValidReading.
  rewrite orb_comm. decide_R; reflexivity.
Qed.


(** What the confidence floor lets into the history: a score in
    [[0.3, 1]], or the [NaN] of a degenerate accuracy range
    ([maxAccuracy = minAccuracy]) for a reading whose accuracy is that
    bound, since [NaN < 0.3] is false. *)
Definition floorOk (o : Options) (r : GPSReading) : Prop :=
  (exists x, confidence r = Fin x /\ 0.3 <= x <= 1) \/
  (confidence r = NaN /\ 0 < accuracy r /\ maxAccuracy o = minAccuracy o /\
   accuracy r = minAccuracy o).

Lemma floorOk_conf o st c now :
  js_lt (calculateConfidence o st (readingOf c now (Fin 0))) (Fin 0.3) = false ->
  floorOk o (readingOf c now (calculateConfidence o st (readingOf c now (Fin 0)))).
Proof.
  intros Hl. destruct (calculateConfidence_cases o st (readingOf c now (Fin 0)))
    as [[Hd E]|[_ (x & E & Hx)]]; rewrite E in *.
  - right. simpl in Hd. destruct Hd as (H1 & H2 & H3). simpl. auto.
  - left. exists x. split; [reflexivity|]. simpl in Hl.
    destruct (Rltb_spec x 0.3); [discriminate|lra].
Qed.




(** C9.  The validator of useStableGPS also refuses readings that are more
    accurate than [minAccuracy]; such a reading changes no state. *)
Theorem validator_rejects_too_accurate o st now c :
  coordAccuracy c < minAccuracy o ->
  (forall conf, isValidReading o st (readingOf c now conf) = false) /\
  processGPSReading o st now c = st.
Proof.
  intros Hlow.
  assert (Hv : forall conf, isValidReading o st (readingOf c now conf) = false)
    by (intros conf; apply isValidReading_acc_low; exact Hlow).
  split; [exact Hv|]. apply process_invalid_unchanged. exact Hv.
Qed.

Lemma validator_rejects_too_accurate_witness :
  coordAccuracy (mkCoords 0 0 2) < minAccuracy defaultOptions /\
  (forall conf, isValidReading defaultOptions initialState
                  (readingOf (mkCoords 0 0 2) 1000 conf) = false) /\
  processGPSReading defaultOptions initialState 1000 (mkCoords 0 0 2)
    = initialState.
Proof.
  assert (H : coordAccuracy (mkCoords 0 0 2) < minAccuracy defaultOptions)
    by (simpl; lra).
  split; [exact H|].
  exact (validator_rejects_too_accurate defaultOptions initialState 1000
           (mkCoords 0 0 2) H).
Defined.


Lemma length_slice_last {A} k (l : list A) :
  length (slice_last k l) = Nat.min k (length l).
Proof. unfold slice_last. rewrite length_skipn. lia. Qed.

(** C7.  On an accepted reading [r] (pushed onto the buffer [buf]) the
    median stage works on the last five buffered readings, [r] being the
    last of them: with fewer than three buffered readings it returns [r]'s
    coordinate, otherwise a latitude that is a median of their latitudes
    and a longitude that is a median of their longitudes, each taken
    independently ([sorted[floor(n/2)]]: the middle value for 3 or 5
    readings, the upper middle value for 4). *)
Theorem medianStage_per_axis_medians o buf r :
  enableMedianFilter o = true ->
  let rs := pushShift 20 buf r in
  let recent := slice_last 5 rs in
  (exists pre, recent = pre ++ [r]) /\
  ((length rs < 3)%nat -> medianStage o rs r = mkPos (lat (pos r)) (lng (pos r))) /\
  ((3 <= length rs)%nat ->
     isMedian (map (fun q => lat (pos q)) recent) (lat (medianStage o rs r)) /\
     isMedian (map (fun q => lng (pos q)) recent) (lng (medianStage o rs r))).
Proof.
  intros Hm rs recent.
  split.
  - destruct (pushShift_last 20 buf r ltac:(lia)) as [pre Hpre].
    unfold recent, rs. rewrite Hpre. apply slice_last_app_last. lia.
  - unfold medianStage. rewrite Hm, andb_true_l. split.
    + intros Hlt. destruct (3 <=? length rs)%nat eqn:E; [|reflexivity].
      apply Nat.leb_le in E. lia.
    + intros Hge. assert (E : (3 <=? length rs)%nat = true) by (apply Nat.leb_le; lia).
      rewrite E. unfold applyMedianFilter. fold recent.
      assert (Hlr : length recent = Nat.min 5 (length rs)) by apply length_slice_last.
      assert (E2 : (length recent <? 3)%nat = false) by (apply Nat.ltb_ge; lia).
      rewrite E2. simpl lat; simpl lng.
      split; apply middle_isMedian; rewrite length_map; lia.
Qed.

Lemma medianStage_per_axis_medians_witness :
  let buf := [readingOf (mkCoords 5 50 10) 0 (Fin 1);
              readingOf (mkCoords 1 10 10) 1000 (Fin 1);
              readingOf (mkCoords 3 30 10) 2000 (Fin 1);
              readingOf (mkCoords 4 40 10) 3000 (Fin 1)] in
  let r := readingOf (mkCoords 2 20 10) 4000 (Fin 1) in
  let rs := pushShift 20 buf r in
  let recent := slice_last 5 rs in
  (3 <= length rs)%nat /\
  isMedian (map (fun q => lat (pos q)) recent)
    (lat (medianStage defaultOptions rs r)) /\
  isMedian (map (fun q => lng (pos q)) recent)
    (lng (medianStage defaultOptions rs r)).
Proof.
  cbv zeta.
  pose proof (medianStage_per_axis_medians defaultOptions
    [readingOf (mkCoords 5 50 10) 0 (Fin 1);
     readingOf (mkCoords 1 10 10) 1000 (Fin 1);
     readingOf (mkCoords 3 30 10) 2000 (Fin 1);
     readingOf (mkCoords 4 40 10) 3000 (Fin 1)]
    (readingOf (mkCoords 2 20 10) 4000 (Fin 1)) eq_refl) as H.
  cbv zeta in H. destruct H as (_ & _ & H3).
  assert (Hl : (3 <= length (pushShift 20
    [readingOf (mkCoords 5 50 10) 0 (Fin 1);
     readingOf (mkCoords 1 10 10) 1000 (Fin 1);
     readingOf (mkCoords 3 30 10) 2000 (Fin 1);
     readingOf (mkCoords 4 40 10) 3000 (Fin 1)]
    (readingOf (mkCoords 2 20 10) 4000 (Fin 1))))%nat) by (simpl; lia).
  exact (conj Hl (H3 Hl)).
Defined.


Lemma applyKalmanFilter_P ks lv r :
  P (fst (applyKalmanFilter ks lv r)) = P ks.
Proof. unfold applyKalmanFilter. destruct (initialized ks); reflexivity. Qed.

Lemma process_P o st now c :
  P (kalmanState (processGPSReading o st now c)) = P (kalmanState st).
Proof.
  unfold processGPSReading.
  destruct (Rltb _ _); [reflexivity|]. simpl.
  destruct (enableConfidenceFiltering o && js_lt _ (Fin 0.3)); [reflexivity|].
  destruct (isValidReading o st _); simpl; [|reflexivity].
  destruct (enableKalmanFilter o); [|reflexivity].
  pose proof (applyKalmanFilter_P (kalmanState st) (lastValidReading st)
    (mkReading (medianStage o (pushShift 20 (readings st)
       (mkReading {| lat := latitude c; lng := longitude c |} (coordAccuracy c) now
          (if enableConfidenceFiltering o
           then calculateConfidence o st (readingOf c now (Fin 0)) else Fin 1.0)))
       (mkReading {| lat := latitude c; lng := longitude c |} (coordAccuracy c) now
          (if enableConfidenceFiltering o
           then calculateConfidence o st (readingOf c now (Fin 0)) else Fin 1.0)))
     (coordAccuracy c) now
     (if enableConfidenceFiltering o
      then calculateConfidence o st (readingOf c now (Fin 0)) else Fin 1.0))) as HP.
  destruct (applyKalmanFilter _ _ _) as [ks fp]. exact HP.
Qed.

(** C1 (code defect).  [applyKalmanFilter] never writes [P]: no step of
    the hook changes the covariance, which stays the initial diagonal of
    1000 for the whole session.  At the second reading of the failing
    input (measurement noise [R = max(0.1, 10/10) = 1]) the standard update
    would set the first diagonal entry to [1000/1001]. *)
Theorem kalman_covariance_never_updated :
  (forall o st now c,
     P (kalmanState (processGPSReading o st now c)) = P (kalmanState st)) /\
  P (kalmanState initialState) =
    [[1000; 0; 0; 0]; [0; 1000; 0; 0]; [0; 0; 1000; 0]; [0; 0; 0; 1000]] /\
  entry (KalmanSpec.covarianceUpdate (P initialKalman) (Math_max 0.1 (10 / 10))) 0 0
    = 1000 / 1001 /\
  1000 / 1001 <> 1000.
Proof.
  split; [exact process_P|]. split; [reflexivity|]. split; [|lra].
  rewrite Math_max_r by lra.
  unfold KalmanSpec.covarianceUpdate, KalmanSpec.inv2. cbn.
  unfold entry. cbn. field.
Qed.

End StableProofs.

(** ** useUltraStableGPS *)

#[local] Arguments Ultra.validateGPSReading : simpl never.
#[local] Arguments Ultra.calculateWeightedAverage : simpl never.
#[local] Arguments Ultra.readingConfidence : simpl never.
#[local] Arguments Ultra.qualityOf : simpl never.
#[local] Arguments Ultra.processGPSReading : simpl never.

Module UltraProofs.
Import Ultra.

Lemma validate_accuracy o st r :
  validateGPSReading o st r = true -> accuracy r <= minimumAccuracy o.
Proof.
  unfold validateGPSReading. destruct (Rltb_spec (minimumAccuracy o) (accuracy r));
    [discriminate|]. intros _. lra.
Qed.

(** Every accepted reading is pushed with its validation flag set, its
    accuracy within [minimumAccuracy], and the good-reading counter
    incremented; the steps after the push keep buffer and counter. *)
Lemma process_cases o v st now c :
  processGPSReading o v st now c = st \/
  exists r, (accuracy r <= minimumAccuracy o /\ isValidated r = true) /\
    gpsBuffer (processGPSReading o v st now c) =
      pushShift (bufferSize o) (gpsBuffer st) r /\
    consecutiveGoodReadings (processGPSReading o v st now c) =
      S (consecutiveGoodReadings st).
Proof.
  unfold processGPSReading.
  destruct (Rltb _ _); [left; reflexivity|]. cbn zeta.
  match goal with |- context [validateGPSReading o st ?r] =>
    destruct (validateGPSReading o st r) eqn:Ev end; [|left; reflexivity].
  right. apply validate_accuracy in Ev. simpl in Ev.
  exists (mkBuf (mkPos (latitude c) (longitude c)) (coordAccuracy c) now
            (readingConfidence o (coordAccuracy c)) true).
  split; [simpl; split; [exact Ev|reflexivity]|].
  destruct (Rleb_spec (coordAccuracy c) (minimumAccuracy o)) as [_|Hn]; [|lra].
  destruct (calculateWeightedAverage _ _ _) as [sp|]; [|split; reflexivity].
  destruct (enablePositionLock o && _ && _);
    [destruct (forallb _ _)|];
    destruct (v_isLocked v), (v_lockedPosition v), (enablePositionLock o);
    try destruct (Rleb _ _); split; reflexivity.
Qed.

Lemma readingConfidence_ge o acc : 0.1 <= readingConfidence o acc.
Proof. unfold readingConfidence. apply Math_max_ge_l. Qed.

(** An accepted reading ([accuracy <= minimumAccuracy < 50]) always gets
    confidence 1. *)
Lemma readingConfidence_one o acc :
  acc <= minimumAccuracy o -> minimumAccuracy o < 50 ->
  readingConfidence o acc = 1.
Proof.
  intros H1 H2. unfold readingConfidence.
  assert (Hd : 0 <= (minimumAccuracy o - acc) / (50 - minimumAccuracy o)).
  { unfold Rdiv. apply Rmult_le_pos; [lra|]. left. apply Rinv_0_lt_compat. lra. }
  replace (1 - (acc - minimumAccuracy o) / (50 - minimumAccuracy o))
    with (1 + (minimumAccuracy o - acc) / (50 - minimumAccuracy o)) by (field; lra).
  rewrite Math_min_l by lra. rewrite Math_max_r by lra. lra.
Qed.

Lemma Forall_sliceNeg {A} (Pr : A -> Prop) k l :
  Forall Pr l -> Forall Pr (sliceNeg k l).
Proof.
  intros H. unfold sliceNeg. destruct (k =? 0)%nat; [exact H|].
  apply Forall_skipn. exact H.
Qed.

(** The validator accepts a reading close enough to a point [q] at which
    the whole buffer and the base position sit. *)
Lemma validate_near o st rd q :
  Forall (fun r => pos r = q) (gpsBuffer st) ->
  basePosition st = None \/ basePosition st = Some q ->
  accuracy rd <= minimumAccuracy o ->
  calculateDistance (pos rd) q <= maxJumpDistance o ->
  calculateDistance (pos rd) q <= lockRadius o * 3 ->
  validateGPSReading o st rd = true.
Proof.
  intros Hb Hbase Ha Hj Hr. unfold validateGPSReading. cbv zeta.
  rewrite (Rltb_false (minimumAccuracy o)) by lra.
  destruct (3 <=? length (gpsBuffer st))%nat eqn:E3.
  - apply Nat.leb_le in E3.
    assert (Hrr : Forall (fun r => pos r = q) (slice_last 3 (gpsBuffer st)))
      by (apply Forall_skipn; exact Hb).
    assert (Hne : slice_last 3 (gpsBuffer st) <> []).
    { intros Hn. pose proof (StableProofs.length_slice_last 3 (gpsBuffer st)) as HL.
      rewrite Hn, Nat.min_l in HL by exact E3. discriminate. }
    rewrite (avg_const (fun r => lat (pos r)) (lat q)); cycle 1.
    { eapply Forall_impl; [|exact Hrr]. intros r Hq. simpl. rewrite Hq. reflexivity. }
    { exact Hne. }
    rewrite (avg_const (fun r => lng (pos r)) (lng q)); cycle 1.
    { eapply Forall_impl; [|exact Hrr]. intros r Hq. simpl. rewrite Hq. reflexivity. }
    { exact Hne. }
    replace (mkPos (lat q) (lng q)) with q by (destruct q; reflexivity).
    rewrite (Rltb_false (lockRadius o * 3)) by lra.
    destruct Hbase as [-> | ->]; [reflexivity|].
    rewrite Rltb_false by lra. reflexivity.
  - destruct Hbase as [-> | ->]; [reflexivity|].
    rewrite Rltb_false by lra. reflexivity.
Qed.

(** The weighted sums of [calculateWeightedAverage] (its [let]s inlined)
    over readings that all sit at [p] and all carry a positive weight. *)
Lemma wfold_const now p (fl : list GPSBuffer) tw :
  Forall (fun r => pos r = p /\ 0 < confidence r /\ now - timestamp r < 10000) fl ->
  exists tw',
    fold_left (fun acc r =>
      let '(tw, wl, wg) := acc in
      (tw + 1 / Math_max (accuracy r) 1 * (1 - (now - timestamp r) / 10000)
              * confidence r,
       wl + lat (pos r) * (1 / Math_max (accuracy r) 1
              * (1 - (now - timestamp r) / 10000) * confidence r),
       wg + lng (pos r) * (1 / Math_max (accuracy r) 1
              * (1 - (now - timestamp r) / 10000) * confidence r)))
      fl (tw, lat p * tw, lng p * tw) = (tw', lat p * tw', lng p * tw') /\
    tw <= tw' /\ (fl <> [] -> tw < tw').
Proof.
  revert tw; induction fl as [|r fl IH]; intros tw Hf.
  - exists tw. split; [reflexivity|]. split; [lra|]. intros E; contradiction.
  - apply Forall_cons_iff in Hf as [(Hp & Hc & Ht) Hf'].
    set (w := 1 / Math_max (accuracy r) 1 * (1 - (now - timestamp r) / 10000)
              * confidence r).
    assert (Hw : 0 < w).
    { unfold w. pose proof (Math_max_ge_r (accuracy r) 1).
      apply Rmult_lt_0_compat; [apply Rmult_lt_0_compat|exact Hc].
      - unfold Rdiv; rewrite Rmult_1_l; apply Rinv_0_lt_compat; lra.
      - lra. }
    destruct (IH (tw + w) Hf') as (tw' & Heq & Hle & _).
    exists tw'. cbn [fold_left]. rewrite Hp.
    match goal with |- fold_left _ _ ?acc = _ /\ _ =>
      replace acc with (tw + w, lat p * (tw + w), lng p * (tw + w))
        by (unfold w; f_equal; [f_equal|]; ring) end.
    split; [exact Heq|]. split; [lra|]. intros _; lra.
Qed.

(** [calculateWeightedAverage] returns [p] when every reading it keeps
    sits at [p] and it keeps at least one. *)
Lemma wavg_at o buf now p :
  Forall (fun r => 0 < confidence r /\
     (Rltb (now - timestamp r) 10000 && Rleb (accuracy r) (minimumAccuracy o * 2)
      && isValidated r = true -> pos r = p)) buf ->
  (exists r, In r buf /\ now - timestamp r < 10000 /\
     accuracy r <= minimumAccuracy o * 2 /\ isValidated r = true) ->
  calculateWeightedAverage o buf now = Some p.
Proof.
  intros Hb (r0 & Hin & H1 & H2 & H3). unfold calculateWeightedAverage.
  destruct buf as [|b0 buf']; [destruct Hin|]. cbv zeta.
  remember (filter _ (b0 :: buf')) as fl eqn:Efl.
  assert (Hfl : Forall (fun r => pos r = p /\ 0 < confidence r /\
                                 now - timestamp r < 10000) fl).
  { apply Forall_forall. intros r Hr. rewrite Efl in Hr.
    apply filter_In in Hr as [Hr Hp].
    rewrite Forall_forall in Hb. destruct (Hb r Hr) as [Hc Himp].
    split; [apply Himp; exact Hp|]. split; [exact Hc|].
    apply andb_prop in Hp as [Hp _]. apply andb_prop in Hp as [Hp _].
    revert Hp. destruct (Rltb_spec (now - timestamp r) 10000); [auto|discriminate]. }
  assert (Hne : fl <> []).
  { intros E. assert (Hr0 : In r0 fl).
    { rewrite Efl. apply filter_In. split; [exact Hin|].
      rewrite Rltb_true, Rleb_true, H3 by lra. reflexivity. }
    rewrite E in Hr0. destruct Hr0. }
  destruct (wfold_const now p fl 0 Hfl) as (tw & Heq & _ & Hlt).
  specialize (Hlt Hne).
  replace (0, 0, 0) with (0, lat p * 0, lng p * 0) by (f_equal; [f_equal|]; ring).
  destruct fl as [|f0 fl']; [contradiction|].
  rewrite Heq. rewrite Reqb_false by lra.
  destruct p as [pl pg]; simpl. f_equal. f_equal; field; lra.
Qed.

(** A reading that passes the throttle and the validator, and whose
    buffer gives the stable position [sp]: the rest of the callback. *)
Lemma process_accepted o v st now c sp :
  updateInterval o <= now - lastUpdateTime st ->
  validateGPSReading o st
    (mkBuf (mkPos (latitude c) (longitude c)) (coordAccuracy c) now
       (readingConfidence o (coordAccuracy c)) false) = true ->
  calculateWeightedAverage o
    (pushShift (bufferSize o) (gpsBuffer st)
       (mkBuf (mkPos (latitude c) (longitude c)) (coordAccuracy c) now
          (readingConfidence o (coordAccuracy c)) true)) now = Some sp ->
  processGPSReading o v st now c =
    let buf := pushShift (bufferSize o) (gpsBuffer st)
                 (mkBuf (mkPos (latitude c) (longitude c)) (coordAccuracy c) now
                    (readingConfidence o (coordAccuracy c)) true) in
    let count := S (consecutiveGoodReadings st) in
    let st1 := setBufferCount st buf count in
    let st2 :=
      if enablePositionLock o && negb (v_isLocked v) &&
         (lockThreshold o <=? count)%nat then
        if forallb (fun r => Rleb (calculateDistance sp (pos r)) (lockRadius o))
             (sliceNeg (lockThreshold o) buf)
        then lockPosition o st1 sp now else st1
      else st1 in
    let '(st3, finalPosition) :=
      match v_isLocked v, v_lockedPosition v, enablePositionLock o with
      | true, Some lockedPosition, true =>
          if Rleb (calculateDistance sp lockedPosition) (lockRadius o)
          then (st2, lockedPosition)
          else (setBase (setLock st2 false None) sp, sp)
      | _, _, _ => (setBase st2 sp, sp)
      end in
    publish st3 finalPosition (coordAccuracy c)
      (readingConfidence o (coordAccuracy c)) now (qualityOf (coordAccuracy c)).
Proof.
  intros Ht Hv Hw. pose proof (validate_accuracy _ _ _ Hv) as Ha. simpl in Ha.
  unfold processGPSReading. rewrite Rltb_false by lra. cbv zeta.
  rewrite Hv. cbn [negb]. rewrite Rleb_true by lra. rewrite Hw. reflexivity.
Qed.

(** A reading taken where every buffered reading and the base position
    already are, seen by a callback that believes the hook unlocked: it is
    buffered, the stable position stays that point, and the hook locks there
    once [lockThreshold] good readings are counted. *)
Lemma stationary_step o v st now c :
  v_isLocked v = false ->
  updateInterval o <= now - lastUpdateTime st ->
  0 <= coordAccuracy c <= minimumAccuracy o ->
  0 <= lockRadius o -> 0 <= maxJumpDistance o -> (0 < bufferSize o)%nat ->
  basePosition st = None \/
  basePosition st = Some (mkPos (latitude c) (longitude c)) ->
  Forall (fun r => pos r = mkPos (latitude c) (longitude c) /\ 0 < confidence r)
    (gpsBuffer st) ->
  processGPSReading o v st now c =
    let p := mkPos (latitude c) (longitude c) in
    let st1 := setBufferCount st
                 (pushShift (bufferSize o) (gpsBuffer st)
                    (mkBuf p (coordAccuracy c) now
                       (readingConfidence o (coordAccuracy c)) true))
                 (S (consecutiveGoodReadings st)) in
    publish
      (setBase (if enablePositionLock o &&
                   (lockThreshold o <=? S (consecutiveGoodReadings st))%nat
                then lockPosition o st1 p now else st1) p)
      p (coordAccuracy c) (readingConfidence o (coordAccuracy c)) now
      (qualityOf (coordAccuracy c)).
Proof.
  intros Hv Ht Ha Hr Hj Hcap Hbase Hb.
  set (p := mkPos (latitude c) (longitude c)).
  set (rd := mkBuf p (coordAccuracy c) now (readingConfidence o (coordAccuracy c)) true).
  pose proof (readingConfidence_ge o (coordAccuracy c)) as Hcf.
  assert (Hbuf : Forall (fun r => pos r = p /\ 0 < confidence r)
                   (pushShift (bufferSize o) (gpsBuffer st) rd)).
  { apply Forall_pushShift; [exact Hb|]. split; [reflexivity|]. simpl. lra. }
  rewrite (process_accepted o v st now c p); cycle 1.
  - exact Ht.
  - apply (validate_near o st _ p).
    + eapply Forall_impl; [|exact Hb]. intros r [Hp _]. exact Hp.
    + exact Hbase.
    + simpl. lra.
    + simpl. fold p. rewrite calculateDistance_self. lra.
    + simpl. fold p. rewrite calculateDistance_self. lra.
  - fold p. fold rd. apply wavg_at.
    + eapply Forall_impl; [|exact Hbuf]. intros r [Hp Hc]. auto.
    + destruct (pushShift_last (bufferSize o) (gpsBuffer st) rd Hcap) as [pre Hpre].
      exists rd. rewrite Hpre. split; [apply in_or_app; right; left; reflexivity|].
      simpl. split; [lra|]. split; [lra|reflexivity].
  - cbv zeta. fold p. fold rd. rewrite Hv.
    replace (enablePositionLock o && negb false &&
             (lockThreshold o <=? S (consecutiveGoodReadings st))%nat)
      with (enablePositionLock o &&
            (lockThreshold o <=? S (consecutiveGoodReadings st))%nat)
      by (destruct (enablePositionLock o); reflexivity).
    destruct (enablePositionLock o && _); [|reflexivity].
    assert (Hall : forallb (fun r => Rleb (calculateDistance p (pos r)) (lockRadius o))
                     (sliceNeg (lockThreshold o)
                        (pushShift (bufferSize o) (gpsBuffer st) rd)) = true).
    { apply forallb_forall. intros r Hin.
      pose proof (Forall_sliceNeg _ (lockThreshold o) _ Hbuf) as Hs.
      rewrite Forall_forall in Hs. destruct (Hs r Hin) as [-> _].
      rewrite calculateDistance_self. apply Rleb_true. exact Hr. }
    rewrite Hall. reflexivity.
Qed.

(** A callback that sees the hook locked at [lp], with the lock enabled,
    receiving an accepted reading whose stable position [sp] lies farther
    than [lockRadius] from [lp]. *)
Lemma process_unlock o v st now c sp lp :
  v_isLocked v = true -> v_lockedPosition v = Some lp ->
  enablePositionLock o = true ->
  updateInterval o <= now - lastUpdateTime st ->
  validateGPSReading o st
    (mkBuf (mkPos (latitude c) (longitude c)) (coordAccuracy c) now
       (readingConfidence o (coordAccuracy c)) false) = true ->
  calculateWeightedAverage o
    (pushShift (bufferSize o) (gpsBuffer st)
       (mkBuf (mkPos (latitude c) (longitude c)) (coordAccuracy c) now
          (readingConfidence o (coordAccuracy c)) true)) now = Some sp ->
  lockRadius o < calculateDistance sp lp ->
  let st' := processGPSReading o v st now c in
  s_isLocked st' = false /\ s_lockedPosition st' = None /\
  basePosition st' = Some sp /\ s_position st' = Some sp /\
  gpsBuffer st' =
    pushShift (bufferSize o) (gpsBuffer st)
      (mkBuf (mkPos (latitude c) (longitude c)) (coordAccuracy c) now
         (readingConfidence o (coordAccuracy c)) true) /\
  consecutiveGoodReadings st' = S (consecutiveGoodReadings st).
Proof.
  intros Hv Hl He Ht Hval Hw Hfar. cbv zeta.
  rewrite (process_accepted o v st now c sp Ht Hval Hw). cbv zeta.
  rewrite Hv, Hl, He. cbn [negb andb].
  rewrite Rleb_false by exact Hfar.
  repeat split; reflexivity.
Qed.

(** Side conditions of [stationary_step] on a concrete state. *)
Ltac stationary_side :=
  cbn;
  first
  [ reflexivity
  | lia
  | lra
  | (split; lra)
  | (left; reflexivity)
  | (right; reflexivity)
  | (repeat (apply Forall_cons;
       [cbn; split; [reflexivity|
                cbn; match goal with |- 0 < readingConfidence ?o ?a =>
                  pose proof (readingConfidence_ge o a); lra end]|]);
     apply Forall_nil) ].

Definition bufferInv (o : Options) (st : State) : Prop :=
  Forall (fun r => accuracy r <= minimumAccuracy o /\ isValidated r = true)
         (gpsBuffer st).

Lemma step_bufferInv o st e : bufferInv o st -> bufferInv o (step o st e).
Proof.
  unfold bufferInv. intros Hinv. destruct e as [now c| | |now|now|]; simpl.
  - destruct (watch st) as [v|]; [|exact Hinv].
    destruct (process_cases o v st now c) as [->|(r & Hr & Hb & _)]; [exact Hinv|].
    rewrite Hb. apply Forall_pushShift; assumption.
  - exact Hinv.
  - exact Hinv.
  - destruct (lockTimer st); [destruct (Rleb _ _)|]; exact Hinv.
  - destruct (s_isLocked st); [exact Hinv|].
    destruct (s_position st); exact Hinv.
  - constructor.
Qed.

(** C10.  Every reading in the ultra-stable buffer passed validation and
    has [accuracy <= minimumAccuracy], whatever event the hook receives;
    and each reading that enters the buffer increments
    [consecutiveGoodReadings] (its reset branch is never taken for an
    accepted reading). *)
Theorem buffer_accuracy_invariant o st :
  bufferInv o st ->
  (forall e, bufferInv o (step o st e)) /\
  (forall v now c,
     processGPSReading o v st now c = st \/
     exists r, (accuracy r <= minimumAccuracy o /\ isValidated r = true) /\
       gpsBuffer (processGPSReading o v st now c) =
         pushShift (bufferSize o) (gpsBuffer st) r /\
       consecutiveGoodReadings (processGPSReading o v st now c) =
         S (consecutiveGoodReadings st)).
Proof.
  intros Hinv. split.
  - intros e. apply step_bufferInv. exact Hinv.
  - intros v now c. apply process_cases.
Qed.

Lemma buffer_accuracy_invariant_witness :
  bufferInv defaultOptions initialState /\
  (forall e, bufferInv defaultOptions (step defaultOptions initialState e)) /\
  (forall v now c,
     processGPSReading defaultOptions v initialState now c = initialState \/
     exists r, (accuracy r <= minimumAccuracy defaultOptions /\ isValidated r = true) /\
       gpsBuffer (processGPSReading defaultOptions v initialState now c) =
         pushShift (bufferSize defaultOptions) (gpsBuffer initialState) r /\
       consecutiveGoodReadings (processGPSReading defaultOptions v initialState now c) =
         S (consecutiveGoodReadings initialState)).
Proof.
  assert (H : bufferInv defaultOptions initialState) by constructor.
  split; [exact H|].
  exact (buffer_accuracy_invariant defaultOptions initialState H).
Defined.

(** C2 (as the code behaves).  When the registered callback sees the hook
    locked at [lp] (lock enabled) and an accepted reading makes the stable
    position [sp] lie farther than [lockRadius] from [lp], the hook unlocks,
    clears [lockedPosition], takes [sp] as base and output position; the
    good-reading counter is not reset: the new reading increments it. *)
Theorem locked_far_reading_unlocks o v st now c sp lp :
  v_isLocked v = true -> v_lockedPosition v = Some lp ->
  enablePositionLock o = true ->
  updateInterval o <= now - lastUpdateTime st ->
  validateGPSReading o st
    (mkBuf (mkPos (latitude c) (longitude c)) (coordAccuracy c) now
       (readingConfidence o (coordAccuracy c)) false) = true ->
  calculateWeightedAverage o
    (pushShift (bufferSize o) (gpsBuffer st)
       (mkBuf (mkPos (latitude c) (longitude c)) (coordAccuracy c) now
          (readingConfidence o (coordAccuracy c)) true)) now = Some sp ->
  lockRadius o < calculateDistance sp lp ->
  let st' := processGPSReading o v st now c in
  s_isLocked st' = false /\ s_lockedPosition st' = None /\
  basePosition st' = Some sp /\ s_position st' = Some sp /\
  consecutiveGoodReadings st' = S (consecutiveGoodReadings st).
Proof.
  intros Hv Hl He Ht Hval Hw Hfar.
  destruct (process_unlock o v st now c sp lp Hv Hl He Ht Hval Hw Hfar)
    as (H1 & H2 & H3 & H4 & _ & H6).
  repeat split; assumption.
Qed.

Lemma locked_far_reading_unlocks_witness :
  let o := defaultOptions in
  let v := mkView true (Some (mkPos 0 0)) in
  let c := mkCoords (35/1000000) 0 5 in
  let sp := mkPos (35/1000000) 0 in
  let st' := processGPSReading o v initialState 1000 c in
  s_isLocked st' = false /\ s_lockedPosition st' = None /\
  basePosition st' = Some sp /\ s_position st' = Some sp /\
  consecutiveGoodReadings st' = 1%nat.
Proof.
  pose proof PI_bounds as Hpi.
  destruct (calculateDistance_meridian_le 0 (35/1000000)) as [_ Hd]; [lra|lra|].
  pose proof (readingConfidence_ge defaultOptions 5) as Hc.
  apply (locked_far_reading_unlocks defaultOptions (mkView true (Some (mkPos 0 0)))
           initialState 1000 (mkCoords (35/1000000) 0 5) (mkPos (35/1000000) 0)
           (mkPos 0 0)).
  - reflexivity.
  - reflexivity.
  - reflexivity.
  - simpl. lra.
  - apply (validate_near _ _ _ (mkPos (35/1000000) 0)).
    + constructor.
    + left; reflexivity.
    + simpl; lra.
    + simpl. rewrite calculateDistance_self. simpl; lra.
    + simpl. rewrite calculateDistance_self. simpl; lra.
  - apply wavg_at.
    + simpl. constructor; [|constructor]. simpl. split; [lra|reflexivity].
    + eexists. split; [simpl; left; reflexivity|]. simpl. split; [lra|].
      split; [lra|reflexivity].
  - rewrite Hd. simpl. lra.
Defined.

(** C2 counterexample (run of the hook, default options): one reading at
    the origin, the user locks at time 15 s and restarts tracking, so the
    callback sees the lock; a reading 0.000035 degrees north (3.7 to 5 m
    away) at time 16 s becomes the stable position, since the old reading is
    out of the 10 s window.  The hook unlocks, but [consecutiveGoodReadings]
    is 2, not 0. *)
Lemma unlock_keeps_good_count_counterexample :
  let o := defaultOptions in
  let st4 := run o initialState
               [StartTracking; ReadingArrives 1000 (mkCoords 0 0 5);
                ToggleLock 15000; StartTracking] in
  let st5 := step o st4 (ReadingArrives 16000 (mkCoords (35/1000000) 0 5)) in
  s_isLocked st4 = true /\ s_lockedPosition st4 = Some (mkPos 0 0) /\
  s_position st5 = Some (mkPos (35/1000000) 0) /\
  lockRadius o < calculateDistance (mkPos (35/1000000) 0) (mkPos 0 0) /\
  s_isLocked st5 = false /\ s_lockedPosition st5 = None /\
  consecutiveGoodReadings st5 <> 0%nat.
Proof.
  cbv zeta.
  pose proof PI_bounds as Hpi.
  destruct (calculateDistance_meridian_le 0 (35/1000000)) as [_ Hd]; [lra|lra|].
  pose proof (readingConfidence_ge defaultOptions 5) as Hc.
  eassert (E4 : run defaultOptions initialState
                  [StartTracking; ReadingArrives 1000 (mkCoords 0 0 5);
                   ToggleLock 15000; StartTracking] = _).
  { unfold run. cbn [fold_left step]. cbn.
    rewrite stationary_step by stationary_side. cbn. reflexivity. }
  rewrite E4. cbn [step watch setWatch].
  match goal with |- context [processGPSReading ?o ?v ?st ?now ?c] =>
    pose proof (process_unlock o v st now c (mkPos (35/1000000) 0) (mkPos 0 0))
      as HU end.
  cbv zeta in HU.
  destruct HU as (H1 & H2 & _ & H4 & _ & H6).
  - reflexivity.
  - reflexivity.
  - reflexivity.
  - cbn. lra.
  - apply (validate_near _ _ _ (mkPos 0 0)).
    + cbn. repeat constructor.
    + right; reflexivity.
    + cbn; lra.
    + cbn. rewrite Hd. lra.
    + cbn. rewrite Hd. lra.
  - apply wavg_at.
    + cbn. constructor; [|constructor; [|constructor]].
      * cbn. split; [lra|]. rewrite Rltb_false by lra. discriminate.
      * cbn. split; [lra|reflexivity].
    + eexists. split; [cbn; right; left; reflexivity|]. cbn.
      split; [lra|]. split; [lra|reflexivity].
  - cbn. rewrite Hd. lra.
  - rewrite H1, H2, H4, H6. cbn.
    repeat split; try reflexivity; try discriminate.
    rewrite Hd. cbn. lra.
Qed.

(** C4 (code defect).  [startTracking] registers the [processGPSReading]
    of its render, whose [isLocked] is [false] and [lockedPosition] [null];
    the callback keeps these values after the hook locks.  Run with default
    options: five readings at the origin (one per second) lock the hook
    there; a sixth reading 0.00001 degrees north moves the stable position
    to [2/900000] degrees north, within [lockRadius] of the lock, yet the
    hook re-locks there and reports that position instead of the frozen
    one. *)
Theorem locked_output_follows_stale_callback :
  let o := defaultOptions in
  let st5 := run o initialState
               [StartTracking; ReadingArrives 1000 (mkCoords 0 0 5);
                ReadingArrives 2000 (mkCoords 0 0 5);
                ReadingArrives 3000 (mkCoords 0 0 5);
                ReadingArrives 4000 (mkCoords 0 0 5);
                ReadingArrives 5000 (mkCoords 0 0 5)] in
  let st6 := step o st5 (ReadingArrives 6000 (mkCoords (1/100000) 0 5)) in
  s_isLocked st5 = true /\ s_lockedPosition st5 = Some (mkPos 0 0) /\
  s_position st5 = Some (mkPos 0 0) /\
  calculateDistance (mkPos (2/900000) 0) (mkPos 0 0) <= lockRadius o /\
  s_isLocked st6 = true /\ s_lockedPosition st6 = Some (mkPos (2/900000) 0) /\
  s_position st6 = Some (mkPos (2/900000) 0) /\
  s_position st6 <> s_position st5.
Proof.
  cbv zeta.
  pose proof PI_bounds as Hpi.
  destruct (calculateDistance_meridian_le 0 (1/100000)) as [_ Hd6]; [lra|lra|].
  destruct (calculateDistance_meridian_le 0 (2/900000)) as [_ Hs0]; [lra|lra|].
  destruct (calculateDistance_meridian_le (2/900000) (1/100000)) as [Hs1 _];
    [lra|lra|].
  assert (Hc1 : readingConfidence defaultOptions 5 = 1)
    by (apply readingConfidence_one; simpl; lra).
  remember (run defaultOptions initialState
              [StartTracking; ReadingArrives 1000 (mkCoords 0 0 5);
               ReadingArrives 2000 (mkCoords 0 0 5);
               ReadingArrives 3000 (mkCoords 0 0 5);
               ReadingArrives 4000 (mkCoords 0 0 5);
               ReadingArrives 5000 (mkCoords 0 0 5)]) as st5 eqn:Hst5.
  set (rd := fun t => mkBuf (mkPos 0 0) 5 t (readingConfidence defaultOptions 5) true).
  assert (F : watch st5 = Some (mkView false None) /\ lastUpdateTime st5 = 5000 /\
              gpsBuffer st5 = [rd 1000; rd 2000; rd 3000; rd 4000; rd 5000] /\
              basePosition st5 = Some (mkPos 0 0) /\
              consecutiveGoodReadings st5 = 5%nat /\ s_isLocked st5 = true /\
              s_lockedPosition st5 = Some (mkPos 0 0) /\
              s_position st5 = Some (mkPos 0 0)).
  { subst st5. unfold run. cbn [fold_left step]. cbn.
    repeat (rewrite stationary_step by stationary_side; cbn).
    repeat split; reflexivity. }
  clear Hst5.
  destruct F as (Fw & Ft & Fb & Fbase & Fc & Fl & Flp & Fp).
  rewrite Fl, Flp, Fp. cbn [step]. rewrite Fw.
  rewrite (process_accepted defaultOptions (mkView false None) st5 6000
             (mkCoords (1/100000) 0 5) (mkPos (2/900000) 0)).
  - cbv zeta. rewrite Fb, Fc. cbn.
    rewrite Hs0, Hs1. rewrite !Rleb_true by lra. cbn.
    repeat split; try reflexivity; try lra.
    intros E. injection E. lra.
  - rewrite Ft. simpl. lra.
  - apply (validate_near _ _ _ (mkPos 0 0)).
    + rewrite Fb. repeat constructor.
    + right; exact Fbase.
    + simpl; lra.
    + simpl. rewrite Hd6. lra.
    + simpl. rewrite Hd6. lra.
  - rewrite Fb. cbn. unfold calculateWeightedAverage. cbv zeta. cbn.
    rewrite !Rltb_true by lra. rewrite !Rleb_true by lra. cbn.
    rewrite Hc1. rewrite !Math_max_l by lra.
    rewrite Reqb_false by lra. f_equal. f_equal.
    + match goal with |- ?n / ?d = _ =>
        replace d with (9/10) by lra; replace n with (1/500000) by lra end.
      field.
    + match goal with |- ?n / ?d = _ =>
        replace d with (9/10) by lra; replace n with 0 by lra end.
      field.
Qed.

(** The confidence an ultra-stable reading is buffered with is a function
    of its accuracy alone. *)
Lemma process_pushed o v st now c :
  processGPSReading o v st now c = st \/
  gpsBuffer (processGPSReading o v st now c) =
    pushShift (bufferSize o) (gpsBuffer st)
      (mkBuf (mkPos (latitude c) (longitude c)) (coordAccuracy c) now
         (readingConfidence o (coordAccuracy c)) true).
Proof.
  unfold processGPSReading.
  destruct (Rltb _ _); [left; reflexivity|]. cbn zeta.
  match goal with |- context [validateGPSReading o st ?r] =>
    destruct (validateGPSReading o st r) eqn:Ev end; [|left; reflexivity].
  right. cbn [negb]. destruct (calculateWeightedAverage _ _ _) as [sp|]; [|reflexivity].
  repeat match goal with
  | |- context [if ?b then _ else _] => destruct b
  | |- context [match v_lockedPosition v with _ => _ end] =>
      destruct (v_lockedPosition v)
  end; reflexivity.
Qed.


End UltraProofs.

(** ** The confidence scores *)

Module ConfidenceProofs.
Import ConfidenceFactors.



End ConfidenceProofs.

(** ** useMobileGPS *)

Module MobileProofs.
Import Mobile.

(** A reading above [accuracyThreshold] is only appended to the raw
    [readings] history. *)
Lemma process_inaccurate o st now c :
  accuracyThreshold o < coordAccuracy c ->
  processGPSReading o st now c =
    setReadings st (pushShift 10 (readings st)
      (mkReading (mkPos (latitude c) (longitude c)) (coordAccuracy c) now)).
Proof.
  intros H. unfold processGPSReading, isValidReading. cbv zeta. simpl.
  rewrite Rltb_true by exact H. reflexivity.
Qed.

(** Nothing the callback computes depends on the [readings] history. *)
Lemma process_ignores_readings o st rs now c :
  setReadings (processGPSReading o (setReadings st rs) now c) [] =
  setReadings (processGPSReading o st now c) [].
Proof.
  unfold processGPSReading. cbv zeta. cbn [lastValidPosition setReadings].
  destruct (isValidReading o (lastValidPosition st) _); [|reflexivity].
  cbn [negb]. destruct (lastValidPosition st) as [l|]; [|reflexivity].
  destruct (enableFilter o); [destruct (applyKalmanFilter _ _ _)|];
    destruct (Rltb _ _); reflexivity.
Qed.

End MobileProofs.

(** C5 (as the code behaves).  The stable hook leaves its whole state as
    it was on a reading less accurate than [maxAccuracy].  The mobile hook
    rejects a reading less accurate than [accuracyThreshold], but first
    appends it to its raw [readings] history (the last 10 readings); that is
    the only change, and nothing it computes reads that history. *)
Theorem inaccurate_reading_rejected :
  (forall o st now c, Stable.maxAccuracy o < coordAccuracy c ->
     Stable.processGPSReading o st now c = st) /\
  (forall o st now c, Mobile.accuracyThreshold o < coordAccuracy c ->
     Mobile.processGPSReading o st now c =
       Mobile.setReadings st (pushShift 10 (Mobile.readings st)
         (Mobile.mkReading (mkPos (latitude c) (longitude c)) (coordAccuracy c) now))) /\
  (forall o st rs now c,
     Mobile.setReadings (Mobile.processGPSReading o (Mobile.setReadings st rs) now c) [] =
     Mobile.setReadings (Mobile.processGPSReading o st now c) []).
Proof.
  split; [|split; [exact MobileProofs.process_inaccurate
                  |exact MobileProofs.process_ignores_readings]].
  intros o st now c H. apply StableProofs.process_invalid_unchanged.
  intros conf. apply StableProofs.isValidReading_acc_high. exact H.
Qed.

Lemma inaccurate_reading_rejected_witness :
  Stable.processGPSReading Stable.defaultOptions Stable.initialState 1000
    (mkCoords 0 0 200) = Stable.initialState /\
  Mobile.processGPSReading Mobile.defaultOptions Mobile.initialState 1000
    (mkCoords 0 0 200) =
    Mobile.setReadings Mobile.initialState
      [Mobile.mkReading (mkPos 0 0) 200 1000].
Proof.
  split.
  - apply (proj1 inaccurate_reading_rejected). simpl. lra.
  - apply (proj1 (proj2 inaccurate_reading_rejected)). simpl. lra.
Defined.

(** C5 counterexample: the mobile hook with default options, a reading of
    accuracy 200 m (threshold 50 m) is rejected but stays in the hook's
    [readings] history, so the hook's state changes. *)
Lemma mobile_keeps_rejected_reading_counterexample :
  let st' := Mobile.processGPSReading Mobile.defaultOptions Mobile.initialState
               1000 (mkCoords 0 0 200) in
  Mobile.readings st' = [Mobile.mkReading (mkPos 0 0) 200 1000] /\
  Mobile.s_position st' = None /\
  st' <> Mobile.initialState.
Proof.
  cbv zeta. rewrite MobileProofs.process_inaccurate by (simpl; lra).
  split; [reflexivity|]. split; [reflexivity|].
  intros E. apply (f_equal Mobile.readings) in E. discriminate.
Qed.

(** ** Sign of the Haversine distance and range of [Math.atan2] *)

Lemma atan_nonneg y : 0 <= y -> 0 <= atan y.
Proof.
  intros Hy. destruct (Req_dec y 0) as [->|Hn].
  - rewrite atan_0. lra.
  - pose proof (atan_increasing 0 y ltac:(lra)) as H. rewrite atan_0 in H. lra.
Qed.

Lemma atan_pos y : 0 < y -> 0 < atan y.
Proof.
  intros Hy. pose proof (atan_increasing 0 y Hy) as H. rewrite atan_0 in H. exact H.
Qed.

Lemma Math_atan2_first_quadrant y x :
  0 <= y -> 0 <= x -> 0 <= Math_atan2 y x <= PI / 2.
Proof.
  intros Hy Hx. pose proof PI_RGT_0. unfold Math_atan2.
  destruct (Rltb_spec 0 x) as [Hx'|Hx'].
  - pose proof (atan_bound (y / x)).
    split; [|lra]. apply atan_nonneg.
    apply Rmult_le_pos; [exact Hy|]. left. apply Rinv_0_lt_compat. exact Hx'.
  - rewrite Rltb_false by lra.
    destruct (Rltb_spec 0 y); [lra|].
    rewrite Rltb_false by lra. lra.
Qed.

Lemma Math_atan2_gt y x : - PI < Math_atan2 y x.
Proof.
  pose proof PI_RGT_0. unfold Math_atan2.
  destruct (Rltb_spec 0 x) as [Hx|Hx].
  - pose proof (atan_bound (y / x)). lra.
  - destruct (Rltb_spec x 0) as [Hx'|Hx'].
    + destruct (Rleb_spec 0 y) as [Hy|Hy].
      * pose proof (atan_bound (y / x)). lra.
      * assert (Hq : 0 < y / x).
        { replace (y / x) with ((- y) / (- x)) by (field; lra).
          apply Rdiv_lt_0_compat; lra. }
        pose proof (atan_pos _ Hq). lra.
    + destruct (Rltb_spec 0 y); [lra|].
      destruct (Rltb_spec y 0); lra.
Qed.

Lemma calculateDistance_nonneg p q : 0 <= calculateDistance p q.
Proof.
  unfold calculateDistance. cbv zeta.
  match goal with |- context [Math_atan2 (sqrt ?a) (sqrt ?b)] =>
    pose proof (Math_atan2_first_quadrant (sqrt a) (sqrt b)
                  (sqrt_pos a) (sqrt_pos b)) as H end.
  lra.
Qed.

(** [x % 360] of a non-negative [x] lies in [0, 360). *)
Lemma js_rem_360 v : 0 <= v -> 0 <= Mobile.js_rem v 360 < 360.
Proof.
  intros Hv. unfold Mobile.js_rem, Mobile.jsTrunc.
  destruct (Rle_dec 0 (v / 360)) as [Hq|Hq].
  - destruct (base_Int_part (v / 360)) as [H1 H2].
    set (n := IZR (Int_part (v / 360))) in *.
    replace v with (360 * (v / 360)) at 1 3 by field. lra.
  - exfalso. apply Hq. apply Rmult_le_pos; lra.
Qed.

(** ** useVoiceNavigation *)

Module VoiceProofs.
Import Voice.
Import Stdlib.Strings.String.
Local Open Scope string_scope.

(** [getDistanceAnnouncement] walks its thresholds from the largest down
    and returns at the first one not below the distance, so every
    distance in (25, 1000] gets the one-kilometre phrase: the 500, 200,
    100 and 50 meter phrases are never returned.  Up to 25 m it returns
    the arrival phrase and above 1000 m the empty string.  The table is
    the language's own for en, si, ta, ja and zh, English for any other
    code, and none ([undefined]) for a name inherited from
    [Object.prototype]. *)
Theorem getDistanceAnnouncement_phrases :
  (forall d language, d <= 25 ->
     getDistanceAnnouncement d language =
       option_map (fun code => phrase code Arrived) (langAnnouncements language)) /\
  (forall d language, 25 < d <= 1000 ->
     getDistanceAnnouncement d language =
       option_map (fun code => phrase code In1000) (langAnnouncements language)) /\
  (forall d language, 1000 < d ->
     getDistanceAnnouncement d language = Some EmptyString).
Proof.
  unfold getDistanceAnnouncement, thresholds. cbv zeta.
  split; [|split]; intros d language Hd.
  - rewrite Rleb_true by lra. reflexivity.
  - rewrite Rleb_false by lra. cbv beta iota fix.
    rewrite Rleb_true by lra. reflexivity.
  - rewrite Rleb_false by lra. cbv beta iota fix.
    rewrite !Rleb_false by lra. reflexivity.
Qed.

Lemma getDistanceAnnouncement_phrases_witness :
  getDistanceAnnouncement 100 "en" = Some "In 1 kilometer, " /\
  getDistanceAnnouncement 30 "fr" = Some "In 1 kilometer, " /\
  getDistanceAnnouncement 20 "toString" = None /\
  getDistanceAnnouncement 1500 "ja" = Some EmptyString.
Proof.
  split; [|split; [|split]].
  - rewrite (proj1 (proj2 getDistanceAnnouncement_phrases) 100 "en") by lra.
    reflexivity.
  - rewrite (proj1 (proj2 getDistanceAnnouncement_phrases) 30 "fr") by lra.
    reflexivity.
  - rewrite (proj1 getDistanceAnnouncement_phrases 20 "toString") by lra.
    reflexivity.
  - apply (proj2 (proj2 getDistanceAnnouncement_phrases)). lra.
Defined.

Lemma speak_lastDistance env st t o :
  lastDistanceAnnouncement (speak env st t o) = lastDistanceAnnouncement st.
Proof.
  unfold speak. destruct t as [t|]; [|reflexivity].
  destruct (_ || _); [reflexivity|].
  destruct (selectedVoice env); reflexivity.
Qed.

Lemma announceInstruction_lastDistance env st i :
  lastDistanceAnnouncement (announceInstruction env st i) =
  lastDistanceAnnouncement st.
Proof.
  unfold announceInstruction. destruct (String.eqb i EmptyString); [reflexivity|].
  destruct (lastAnnouncedInstruction st) as [l|];
    [destruct (String.eqb i l); [reflexivity|]|];
    cbn [setLastInstruction lastDistanceAnnouncement]; apply speak_lastDistance.
Qed.

Lemma announceDistance_at_zero env st d :
  lastDistanceAnnouncement st = 0 -> announceDistance env st d = st.
Proof.
  intros H. unfold announceDistance, thresholds. cbv beta iota fix zeta.
  rewrite H. rewrite !(Rltb_false _ 0) by lra. rewrite !andb_false_r.
  reflexivity.
Qed.

Lemma step_lastDistance env st e :
  lastDistanceAnnouncement st = 0 ->
  lastDistanceAnnouncement (step env st e) = 0.
Proof.
  intros H. destruct e; simpl.
  - rewrite speak_lastDistance. exact H.
  - exact H.
  - exact H.
  - unfold toggleEnabled. destruct (negb (isEnabled st)); exact H.
  - rewrite announceInstruction_lastDistance. exact H.
  - rewrite announceDistance_at_zero by exact H. exact H.
  - unfold navigationEffect. destruct currentInstruction as [i|]; [|exact H].
    destruct (_ || _); [exact H|].
    assert (H1 : lastDistanceAnnouncement (announceInstruction env st i) = 0)
      by (rewrite announceInstruction_lastDistance; exact H).
    destruct (Rltb 0 remainingDistance); [|exact H1].
    rewrite announceDistance_at_zero by exact H1. exact H1.
  - unfold arrivalEffect. destruct (_ && _); [|exact H].
    rewrite speak_lastDistance. exact H.
  - exact H.
  - exact H.
Qed.

Lemma run_lastDistance env es st :
  lastDistanceAnnouncement st = 0 ->
  lastDistanceAnnouncement (run env st es) = 0.
Proof.
  revert st. induction es as [|e es IH]; intros st H; [exact H|].
  simpl. apply IH. apply step_lastDistance. exact H.
Qed.

(** [lastDistanceAnnouncement] starts at 0 and is only written after a
    threshold [t] with [lastDistanceAnnouncement > t] is found; all
    thresholds are positive, so it stays 0 in every session and
    [announceDistance] never speaks and never changes anything. *)
Theorem announceDistance_never_speaks env es d :
  let st := run env initialState es in
  lastDistanceAnnouncement st = 0 /\ announceDistance env st d = st.
Proof.
  cbv zeta.
  assert (H : lastDistanceAnnouncement (run env initialState es) = 0)
    by (apply run_lastDistance; reflexivity).
  split; [exact H|]. apply announceDistance_at_zero. exact H.
Qed.

(** [announceInstruction] records a non-empty instruction as announced
    whether or not it was spoken: a second call with the same instruction
    does nothing, and an instruction that arrives while voice is disabled
    is not spoken, not even after voice is switched back on. *)
Theorem announceInstruction_once env st i :
  i <> EmptyString ->
  let st' := announceInstruction env st i in
  lastAnnouncedInstruction st' = Some i /\
  announceInstruction env st' i = st' /\
  (isEnabled st = false ->
     spoken st' = spoken st /\ queue st' = queue st /\
     announceInstruction env (toggleEnabled st') i = toggleEnabled st').
Proof.
  intros Hi. cbv zeta.
  assert (Hne : String.eqb i EmptyString = false)
    by (apply String.eqb_neq; exact Hi).
  assert (Hl : lastAnnouncedInstruction (announceInstruction env st i) = Some i).
  { unfold announceInstruction. rewrite Hne.
    destruct (lastAnnouncedInstruction st) as [l|] eqn:El; [|reflexivity].
    destruct (String.eqb_spec i l) as [->|]; [exact El|reflexivity]. }
  assert (Hsame : forall s, lastAnnouncedInstruction s = Some i ->
                  announceInstruction env s i = s).
  { intros s Hs. unfold announceInstruction. rewrite Hne, Hs, String.eqb_refl.
    reflexivity. }
  split; [exact Hl|]. split; [apply Hsame; exact Hl|].
  intros Hd. split; [|split].
  - unfold announceInstruction. rewrite Hne.
    destruct (lastAnnouncedInstruction st) as [l|];
      [destruct (String.eqb i l); [reflexivity|]|];
      unfold speak; rewrite Hd; reflexivity.
  - unfold announceInstruction. rewrite Hne.
    destruct (lastAnnouncedInstruction st) as [l|];
      [destruct (String.eqb i l); [reflexivity|]|];
      unfold speak; rewrite Hd; reflexivity.
  - apply Hsame. unfold toggleEnabled.
    destruct (negb (isEnabled (announceInstruction env st i))); exact Hl.
Qed.

Lemma announceInstruction_once_witness :
  let env := mkEnv "en" (Some "en-US") in
  let st := mkState false 0.8 false None 0 [] [] in
  let st' := announceInstruction env st "Turn left" in
  lastAnnouncedInstruction st' = Some "Turn left" /\
  announceInstruction env st' "Turn left" = st' /\
  (isEnabled st = false ->
     spoken st' = spoken st /\ queue st' = queue st /\
     announceInstruction env (toggleEnabled st') "Turn left" = toggleEnabled st').
Proof.
  apply (announceInstruction_once (mkEnv "en" (Some "en-US"))
           (mkState false 0.8 false None 0 [] []) "Turn left").
  discriminate.
Defined.

(** [toggleEnabled] reads the [isEnabled] of its render: it cancels speech
    when it switches voice on, and leaves the current utterance playing
    when it switches voice off. *)
Theorem toggleEnabled_cancels_on_enable st :
  (isEnabled st = true ->
     isEnabled (toggleEnabled st) = false /\
     queue (toggleEnabled st) = queue st /\
     isSpeaking (toggleEnabled st) = isSpeaking st) /\
  (isEnabled st = false ->
     isEnabled (toggleEnabled st) = true /\
     queue (toggleEnabled st) = [] /\
     isSpeaking (toggleEnabled st) = false).
Proof.
  unfold toggleEnabled. split; intros H; rewrite H; simpl;
    repeat split; reflexivity.
Qed.

Lemma toggleEnabled_cancels_on_enable_witness :
  let u := mkUtterance "In 1 kilometer, " "en-US" 0.8 0.9 1 in
  let st := mkState true 0.8 true None 0 [u] [u] in
  (isEnabled st = true /\ queue (toggleEnabled st) = [u]) /\
  (isEnabled (toggleEnabled st) = false /\
   queue (toggleEnabled (toggleEnabled st)) = []).
Proof.
  cbv zeta. split.
  - split; [reflexivity|].
    apply (proj1 (toggleEnabled_cancels_on_enable
                    (mkState true 0.8 true None 0
                       [mkUtterance "In 1 kilometer, " "en-US" 0.8 0.9 1]
                       [mkUtterance "In 1 kilometer, " "en-US" 0.8 0.9 1]))).
    reflexivity.
  - split; [reflexivity|].
    apply (proj2 (toggleEnabled_cancels_on_enable
                    (toggleEnabled
                      (mkState true 0.8 true None 0
                         [mkUtterance "In 1 kilometer, " "en-US" 0.8 0.9 1]
                         [mkUtterance "In 1 kilometer, " "en-US" 0.8 0.9 1])))).
    reflexivity.
Defined.

(** When [LANGUAGES] has no entry for the selected language, [speak] still
    cancels whatever is being spoken, then speaks nothing. *)
Theorem speak_without_voice_cancels env st t o :
  selectedVoice env = None -> isEnabled st = true -> t <> EmptyString ->
  queue (speak env st (Some t) o) = [] /\
  spoken (speak env st (Some t) o) = spoken st.
Proof.
  intros Hv He Ht. unfold speak. rewrite He.
  rewrite (proj2 (String.eqb_neq t EmptyString) Ht). simpl.
  rewrite Hv. split; reflexivity.
Qed.

Lemma speak_without_voice_cancels_witness :
  let u := mkUtterance "In 1 kilometer, " "si-LK" 0.8 0.9 1 in
  let st := mkState true 0.8 true None 0 [u] [u] in
  queue (speak (mkEnv "xx" None) st (Some "Turn right") noOptions) = [] /\
  spoken (speak (mkEnv "xx" None) st (Some "Turn right") noOptions) = [u].
Proof.
  apply speak_without_voice_cancels; [reflexivity|reflexivity|discriminate].
Defined.

Lemma clampVolume_range v : 0 <= clampVolume v <= 1.
Proof.
  unfold clampVolume. pose proof (Math_min_le_l 1 v).
  split; [apply Math_max_ge_l|].
  unfold Math_max. destruct (Rltb_spec 0 (Math_min 1 v)); lra.
Qed.

Lemma clampVolume_id v : 0 <= v <= 1 -> clampVolume v = v.
Proof.
  intros H. unfold clampVolume. rewrite Math_min_r by lra.
  apply Math_max_r. lra.
Qed.

Lemma step_volume env st e :
  0 <= volume st <= 1 -> 0 <= volume (step env st e) <= 1.
Proof.
  intros H.
  assert (Hs : forall s t o, volume (speak env s t o) = volume s).
  { intros s t o. unfold speak. destruct t; [|reflexivity].
    destruct (_ || _); [reflexivity|]. destruct (selectedVoice env); reflexivity. }
  assert (Ha : forall s i, volume (announceInstruction env s i) = volume s).
  { intros s i. unfold announceInstruction. destruct (String.eqb i EmptyString); [reflexivity|].
    destruct (lastAnnouncedInstruction s) as [l|];
      [destruct (String.eqb i l); [reflexivity|]|];
      cbn [setLastInstruction volume]; apply Hs. }
  assert (Hd : forall s d, volume (announceDistance env s d) = volume s).
  { intros s d. unfold announceDistance, thresholds. cbv beta iota fix zeta.
    repeat match goal with |- context [if ?b then _ else _] => destruct b end;
      simpl; try apply Hs; reflexivity. }
  destruct e; simpl.
  - rewrite Hs. exact H.
  - exact H.
  - apply clampVolume_range.
  - unfold toggleEnabled. destruct (negb (isEnabled st)); exact H.
  - rewrite Ha. exact H.
  - rewrite Hd. exact H.
  - unfold navigationEffect. destruct currentInstruction as [i|]; [|exact H].
    destruct (_ || _); [exact H|].
    destruct (Rltb 0 remainingDistance); [rewrite Hd|]; rewrite Ha; exact H.
  - unfold arrivalEffect. destruct (_ && _); [rewrite Hs|]; exact H.
  - exact H.
  - exact H.
Qed.

End VoiceProofs.

Module SpeechProofs.
Import Speech.

Lemma step_volume_spoken sup st e :
  0 <= volume st <= 1 -> Forall (fun u => 0 <= Voice.u_volume u <= 1) (spoken st) ->
  0 <= volume (step sup st e) <= 1 /\
  Forall (fun u => 0 <= Voice.u_volume u <= 1) (spoken (step sup st e)).
Proof.
  intros Hv Hs. destruct e; simpl.
  - unfold speak. destruct sup; simpl; [|split; assumption].
    split; [exact Hv|]. apply Forall_app. split; [exact Hs|].
    constructor; [exact Hv|constructor].
  - unfold stop. destruct sup; split; assumption.
  - split; [apply VoiceProofs.clampVolume_range|exact Hs].
  - split; assumption.
  - split; assumption.
Qed.

End SpeechProofs.

(** The volume of both speech hooks stays in [0, 1] whatever handlers and
    effects run: [adjustVolume] clamps every new value.  [useSpeech] speaks
    every utterance at that volume. *)
Theorem volume_stays_in_range :
  (forall env es, 0 <= Voice.volume (Voice.run env Voice.initialState es) <= 1) /\
  (forall sup es,
     let st := Speech.run sup Speech.initialState es in
     0 <= Speech.volume st <= 1 /\
     Forall (fun u => 0 <= Voice.u_volume u <= 1) (Speech.spoken st)).
Proof.
  split.
  - intros env es.
    assert (H : forall st, 0 <= Voice.volume st <= 1 ->
                0 <= Voice.volume (Voice.run env st es) <= 1).
    { induction es as [|e es IH]; intros st Hst; [exact Hst|].
      simpl. apply IH. apply VoiceProofs.step_volume. exact Hst. }
    apply H. simpl. lra.
  - intros sup es. cbv zeta.
    assert (H : forall st, 0 <= Speech.volume st <= 1 ->
                Forall (fun u => 0 <= Voice.u_volume u <= 1) (Speech.spoken st) ->
                0 <= Speech.volume (Speech.run sup st es) <= 1 /\
                Forall (fun u => 0 <= Voice.u_volume u <= 1)
                  (Speech.spoken (Speech.run sup st es))).
    { induction es as [|e es IH]; intros st Hv Hs; [split; assumption|].
      simpl. destruct (SpeechProofs.step_volume_spoken sup st e Hv Hs) as [Hv' Hs'].
      apply IH; assumption. }
    apply H; [simpl; lra|constructor].
Qed.

(** ** useStableGPS: the readings history and the Kalman step *)

Lemma map_pushShift {A B} (f : A -> B) cap l r :
  map f (pushShift cap l r) = pushShift cap (map f l) (f r).
Proof.
  unfold pushShift. cbv zeta.
  assert (E : map f l ++ [f r] = map f (l ++ [r])) by (rewrite map_app; reflexivity).
  rewrite E, length_map.
  destruct (cap <? length (l ++ [r]))%nat; [|reflexivity].
  destruct (l ++ [r]); reflexivity.
Qed.

Lemma pushShift_length_le {A} cap (l : list A) r :
  (length l <= cap)%nat -> (length (pushShift cap l r) <= cap)%nat.
Proof.
  intros H. unfold pushShift. cbv zeta.
  destruct (Nat.ltb_spec cap (length (l ++ [r]))) as [Hlt|Hge].
  - rewrite length_app in *. simpl in *.
    destruct (l ++ [r]) eqn:E; simpl.
    + lia.
    + assert (length (l ++ [r]) = S (length l0)) by (rewrite E; reflexivity).
      rewrite length_app in H0. simpl in H0. lia.
  - exact Hge.
Qed.

Module StableExtraProofs.
Import Stable StableRun.

(** One run of the callback: nothing changes, or the reading passed the
    throttle, the confidence floor and the validator, and is pushed onto
    [readings], becomes [lastValidReading], and the Kalman state is either
    kept or replaced by one [applyKalmanFilter] step. *)
Lemma process_full o st now c :
  let conf := if enableConfidenceFiltering o
              then calculateConfidence o st (StableProofs.readingOf c now (Fin 0))
              else Fin 1.0 in
  let r := StableProofs.readingOf c now conf in
  let st' := processGPSReading o st now c in
  st' = st \/
  (minUpdateInterval o <= now - lastUpdateTime st /\
   (if enableConfidenceFiltering o then StableProofs.floorOk o r
    else confidence r = Fin 1) /\
   isValidReading o st r = true /\
   readings st' = pushShift 20 (readings st) r /\
   lastValidReading st' = Some r /\ lastUpdateTime st' = now /\
   (kalmanState st' = kalmanState st \/
    exists lv r', kalmanState st' = fst (applyKalmanFilter (kalmanState st) lv r'))).
Proof.
  intros conf r st'. subst st'. unfold processGPSReading.
  destruct (Rltb_spec (now - lastUpdateTime st) (minUpdateInterval o)) as [Hlt|Hge];
    [left; reflexivity|].
  simpl. fold (StableProofs.readingOf c now (Fin 0)). fold conf.
  destruct (enableConfidenceFiltering o) eqn:Ef; simpl.
  - destruct (js_lt conf (Fin 0.3)) eqn:Hl; simpl; [left; reflexivity|].
    destruct (isValidReading o st _) eqn:Ev; simpl; [|left; reflexivity].
    right. split; [lra|]. split; [apply StableProofs.floorOk_conf; exact Hl|].
    split; [first [exact Ev | reflexivity]|].
    destruct (enableKalmanFilter o);
      [destruct (applyKalmanFilter _ _ _) as [ks f] eqn:Ek|];
      (split; [reflexivity|]); (split; [reflexivity|]); (split; [reflexivity|]);
      [right; do 2 eexists; rewrite Ek; reflexivity|left; reflexivity].
  - destruct (isValidReading o st _) eqn:Ev; simpl; [|left; reflexivity].
    right. split; [lra|]. split; [unfold conf; simpl; replace 1.0 with 1 by lra; reflexivity|].
    split; [first [exact Ev | reflexivity]|].
    destruct (enableKalmanFilter o);
      [destruct (applyKalmanFilter _ _ _) as [ks f] eqn:Ek|];
      (split; [reflexivity|]); (split; [reflexivity|]); (split; [reflexivity|]);
      [right; do 2 eexists; rewrite Ek; reflexivity|left; reflexivity].
Qed.


Lemma run_app_one o st rs nc :
  run o st (rs ++ [nc]) = processGPSReading o (run o st rs) (fst nc) (snd nc).
Proof. unfold run. rewrite fold_left_app. reflexivity. Qed.


Lemma spacedBy_snoc d l t :
  spacedBy d l -> (l = [] \/ d <= t - last l 0) -> spacedBy d (l ++ [t]).
Proof.
  induction l as [|a l IH]; intros Hs Hd; [exact I|].
  destruct l as [|b l].
  - simpl. destruct Hd as [Hd|Hd]; [discriminate|]. simpl in Hd. split; [lra|exact I].
  - simpl in Hs. destruct Hs as [Hab Hs].
    change (spacedBy d (a :: b :: (l ++ [t]))). simpl.
    split; [exact Hab|].
    change (spacedBy d ((b :: l) ++ [t])). apply IH; [exact Hs|].
    right. destruct Hd as [Hd|Hd]; [discriminate|]. exact Hd.
Qed.

Lemma spacedBy_tl d l : spacedBy d l -> spacedBy d (tl l).
Proof.
  destruct l as [|a [|b l]]; simpl; try tauto.
Qed.

(** Readings enter the history in arrival order, consecutive ones at
    least [minUpdateInterval] ms apart (the throttle), and the newest
    one's timestamp is [lastUpdateTime]. *)
Theorem stable_history_spacing o rs :
  let st := run o initialState rs in
  spacedBy (minUpdateInterval o) (map timestamp (readings st)) /\
  (readings st = [] \/ last (map timestamp (readings st)) 0 = lastUpdateTime st).
Proof.
  cbv zeta. induction rs as [|[now c] rs IH] using rev_ind.
  - split; [exact I|left; reflexivity].
  - rewrite run_app_one. simpl fst. simpl snd.
    set (st := run o initialState rs) in *.
    destruct IH as [Hs Hl].
    destruct (process_full o st now c) as [E|(Ht & _ & _ & Hr & _ & Hu & _)];
      [rewrite E; split; assumption|].
    rewrite Hr, Hu, map_pushShift.
    set (rd := StableProofs.readingOf c now _).
    assert (Htr : timestamp rd = now) by reflexivity.
    rewrite Htr. split.
    + unfold pushShift. cbv zeta.
      assert (Hsn : spacedBy (minUpdateInterval o) (map timestamp (readings st) ++ [now])).
      { apply spacedBy_snoc; [exact Hs|].
        destruct Hl as [Hl|Hl]; [left; rewrite Hl; reflexivity|].
        right. rewrite Hl. lra. }
      destruct (20 <? _)%nat; [apply spacedBy_tl|]; exact Hsn.
    + right. destruct (pushShift_last 20 (map timestamp (readings st)) now
                        ltac:(lia)) as [pre Hpre].
      rewrite Hpre. apply last_last.
Qed.

Definition initialP : list (list R) := P initialKalman.

Lemma applyKalmanFilter_shape ks lv r a b :
  x ks = [a; b; 0; 0] -> P ks = initialP ->
  exists a' b', x (fst (applyKalmanFilter ks lv r)) = [a'; b'; 0; 0].
Proof.
  intros Hx HP. unfold applyKalmanFilter.
  destruct (initialized ks); simpl.
  - rewrite Hx, HP. unfold initialP. simpl.
    unfold at_, entry. simpl.
    do 2 eexists. f_equal. f_equal. f_equal; [|f_equal]; unfold Rdiv; ring.
  - do 2 eexists. reflexivity.
Qed.

Lemma run_kalman o rs :
  let ks := kalmanState (run o initialState rs) in
  P ks = initialP /\ exists a b, x ks = [a; b; 0; 0].
Proof.
  cbv zeta. induction rs as [|[now c] rs IH] using rev_ind.
  - split; [reflexivity|]. exists 0, 0. reflexivity.
  - rewrite run_app_one. simpl fst. simpl snd.
    set (st := run o initialState rs) in *.
    destruct IH as [HP (a & b & Hx)].
    split; [rewrite StableProofs.process_P; exact HP|].
    destruct (process_full o st now c) as [E|(_ & _ & _ & _ & _ & _ & [Hk|(lv & r' & Hk)])].
    + rewrite E. exists a, b. exact Hx.
    + rewrite Hk. exists a, b. exact Hx.
    + rewrite Hk. apply (applyKalmanFilter_shape _ lv r' a b Hx HP).
Qed.

(** In every session the velocity entries of the Kalman state stay 0, so
    the prediction never moves the estimate: once initialised, each
    Kalman step moves the position estimate the fixed fraction
    [g = 1000 / (1000 + max(0.1, accuracy / 10))] of the way to the
    measurement, and the first step returns the measurement itself. *)
Theorem stable_kalman_constant_gain o rs lv r :
  let ks := kalmanState (run o initialState rs) in
  exists a b, x ks = [a; b; 0; 0] /\
  snd (applyKalmanFilter ks lv r) =
    (if initialized ks
     then let g := 1000 / (1000 + Math_max 0.1 (accuracy r / 10)) in
          mkPos (a + g * (lat (pos r) - a)) (b + g * (lng (pos r) - b))
     else mkPos (lat (pos r)) (lng (pos r))).
Proof.
  cbv zeta. destruct (run_kalman o rs) as [HP (a & b & Hx)].
  exists a, b. split; [exact Hx|].
  set (ks := kalmanState (run o initialState rs)) in *.
  pose proof (Math_max_ge_l 0.1 (accuracy r / 10)) as Hm.
  unfold applyKalmanFilter. destruct (initialized ks); simpl; [|reflexivity].
  rewrite Hx, HP. unfold initialP, at_, entry. simpl.
  f_equal; field; lra.
Qed.

End StableExtraProofs.

Module MobileExtraProofs.
Import Mobile MobileRun.

Lemma mobile_process_readings o st now c :
  readings (processGPSReading o st now c) =
    pushShift 10 (readings st)
      (mkReading (mkPos (latitude c) (longitude c)) (coordAccuracy c) now).
Proof.
  unfold processGPSReading. cbv zeta.
  destruct (negb (isValidReading _ _ _)); [reflexivity|].
  destruct (match lastValidPosition st with Some _ => _ | None => _ end) as [kf sp].
  destruct (match lastValidPosition st with Some _ => _ | None => _ end).
  reflexivity.
Qed.

Lemma heading_arg_nonneg a : - PI < a -> 0 <= a * 180 / PI + 360.
Proof.
  intros Ha. pose proof PI_RGT_0 as Hpi.
  replace (a * 180 / PI + 360) with ((a + PI) * (180 / PI) + 180)
    by (field; lra).
  assert (0 < 180 / PI) by (apply Rdiv_lt_0_compat; lra).
  assert (0 < (a + PI) * (180 / PI)) by (apply Rmult_lt_0_compat; lra).
  lra.
Qed.

Definition motionInv (st : State) : Prop :=
  0 <= s_speed st /\ 0 <= s_heading st < 360.

Lemma process_motionInv o st now c :
  motionInv st -> motionInv (processGPSReading o st now c).
Proof.
  intros [Hs Hh]. unfold processGPSReading. cbv zeta.
  destruct (negb (isValidReading _ _ _)); [split; assumption|].
  destruct (match lastValidPosition st with Some _ => _ | None => _ end) as [kf sp].
  destruct (lastValidPosition st) as [l|]; [|split; assumption].
  destruct (Rltb_spec 1000 (now - timestamp l)) as [Ht|Ht]; [|split; assumption].
  split; simpl.
  - unfold Rdiv. apply Rmult_le_pos; [apply calculateDistance_nonneg|].
    left. apply Rinv_0_lt_compat. lra.
  - apply js_rem_360. apply heading_arg_nonneg. apply Math_atan2_gt.
Qed.

Definition kalmanInv (kf : Kalman) : Prop :=
  Q kf = 0.00001 /\ Rn kf = 0.01 /\ 0 < P kf.

Lemma applyKalmanFilter_inv kf lv r :
  kalmanInv kf -> kalmanInv (fst (applyKalmanFilter kf lv r)).
Proof.
  intros (HQ & HR & HP). destruct lv as [l|]; simpl;
    [|exact (conj HQ (conj HR HP))].
  rewrite HQ, HR. split; [reflexivity|]. split; [reflexivity|].
  replace ((1 - (P kf + 0.00001) / (P kf + 0.00001 + 0.01)) * (P kf + 0.00001))
    with (0.01 * (P kf + 0.00001) / (P kf + 0.00001 + 0.01)) by (field; lra).
  apply Rdiv_lt_0_compat; [apply Rmult_lt_0_compat|]; lra.
Qed.

Lemma process_kalmanInv o st now c :
  kalmanInv (kalmanFilter st) ->
  kalmanInv (kalmanFilter (processGPSReading o st now c)).
Proof.
  intros H. unfold processGPSReading. cbv zeta.
  destruct (negb (isValidReading _ _ _)); [exact H|].
  destruct (lastValidPosition st) as [l|]; [|exact H].
  destruct (enableFilter o); [|destruct (Rltb 1000 _); exact H].
  destruct (applyKalmanFilter (kalmanFilter st) (Some l) _) as [kf sp] eqn:E.
  assert (Hk : kf = fst (applyKalmanFilter (kalmanFilter st) (Some l)
                 (mkReading (mkPos (latitude c) (longitude c)) (coordAccuracy c) now)))
    by (rewrite E; reflexivity).
  destruct (Rltb 1000 _); simpl; rewrite Hk; apply applyKalmanFilter_inv; exact H.
Qed.

Lemma mobile_run_app_one o st rs x :
  run o st (rs ++ [x]) = processGPSReading o (run o st rs) (fst x) (snd x).
Proof. unfold run. rewrite fold_left_app. reflexivity. Qed.

Lemma run_inv (I : State -> Prop) o rs :
  I initialState ->
  (forall st now c, I st -> I (processGPSReading o st now c)) ->
  I (run o initialState rs).
Proof.
  intros H0 Hs. induction rs as [|x rs IH] using rev_ind; [exact H0|].
  rewrite mobile_run_app_one. apply Hs. exact IH.
Qed.

(** In every session of the mobile hook the published speed is never
    negative and the heading stays in [0, 360): the speed is a distance
    over a positive time, and the heading is [(atan2 * 180 / PI + 360) % 360]
    with [atan2 > -PI]. *)
Theorem mobile_speed_heading_range o rs :
  let st := run o initialState rs in
  0 <= s_speed st /\ 0 <= s_heading st < 360.
Proof.
  apply (run_inv motionInv).
  - unfold motionInv. simpl. lra.
  - intros st now c. apply process_motionInv.
Qed.

(** In every session the Kalman ref keeps [Q = 0.00001] and [R = 0.01]
    and a positive [P], so a filtering step puts the smoothed position
    strictly between the previous estimate and the measurement: it moves
    the fraction [K] of the way, with [0 < K < 1], and stores that [K]. *)
Theorem mobile_kalman_step_between o rs l r :
  let kf := kalmanFilter (run o initialState rs) in
  exists k, 0 < k < 1 /\
    K (fst (applyKalmanFilter kf (Some l) r)) = k /\
    snd (applyKalmanFilter kf (Some l) r) =
      mkPos (lat (X kf) + k * (lat (pos r) - lat (X kf)))
            (lng (X kf) + k * (lng (pos r) - lng (X kf))).
Proof.
  cbv zeta.
  assert (HI : kalmanInv (kalmanFilter (run o initialState rs))).
  { apply (run_inv (fun st => kalmanInv (kalmanFilter st))).
    - unfold kalmanInv. simpl. repeat split; lra.
    - intros st now c. apply process_kalmanInv. }
  set (kf := kalmanFilter (run o initialState rs)) in *.
  destruct HI as (HQ & HR & HP).
  exists ((P kf + Q kf) / (P kf + Q kf + Rn kf)).
  split; [|split; reflexivity].
  rewrite HQ, HR. split.
  - apply Rdiv_lt_0_compat; lra.
  - apply (Rmult_lt_reg_r (P kf + 0.00001 + 0.01)); [lra|].
    unfold Rdiv. rewrite Rmult_assoc, Rinv_l by lra. lra.
Qed.

Lemma process_first o st now c :
  lastValidPosition st = None -> coordAccuracy c <= accuracyThreshold o ->
  processGPSReading o st now c =
    mkState (Some (mkPos (latitude c) (longitude c))) None false (coordAccuracy c)
      (s_speed st) (s_heading st)
      (pushShift 10 (readings st)
         (mkReading (mkPos (latitude c) (longitude c)) (coordAccuracy c) now))
      (Some (mkReading (mkPos (latitude c) (longitude c)) (coordAccuracy c) now))
      (kalmanFilter st).
Proof.
  intros Hl Ha. unfold processGPSReading. cbv zeta. rewrite Hl.
  unfold isValidReading at 1. simpl accuracy.
  rewrite (Rltb_false (accuracyThreshold o) (coordAccuracy c)) by lra.
  reflexivity.
Qed.

Lemma process_filtered_position o st now c l :
  lastValidPosition st = Some l -> enableFilter o = true ->
  isValidReading o (Some l)
    (mkReading (mkPos (latitude c) (longitude c)) (coordAccuracy c) now) = true ->
  s_position (processGPSReading o st now c) =
    Some (snd (applyKalmanFilter (kalmanFilter st) (Some l)
                 (mkReading (mkPos (latitude c) (longitude c)) (coordAccuracy c) now))).
Proof.
  intros Hl Hf Hv. unfold processGPSReading. cbv zeta. rewrite Hl, Hv, Hf.
  cbn [negb]. destruct (applyKalmanFilter _ _ _) as [kf sp].
  destruct (Rltb 1000 _); reflexivity.
Qed.

(** The Kalman ref starts at [X = (0, 0)] and the first accepted reading
    does not set it, so with filtering on the second accepted reading is
    smoothed towards (0, 0): the published position is the measurement
    scaled by [K = 1.00001 / 1.01001]. *)
Theorem mobile_second_reading_pulled_to_origin o t1 c1 t2 c2 :
  enableFilter o = true ->
  coordAccuracy c1 <= accuracyThreshold o ->
  isValidReading o
    (Some (mkReading (mkPos (latitude c1) (longitude c1)) (coordAccuracy c1) t1))
    (mkReading (mkPos (latitude c2) (longitude c2)) (coordAccuracy c2) t2) = true ->
  let k := (1 + 0.00001) / (1 + 0.00001 + 0.01) in
  s_position (run o initialState [(t1, c1); (t2, c2)]) =
    Some (mkPos (k * latitude c2) (k * longitude c2)).
Proof.
  intros Hf Ha Hv. cbv zeta. unfold run. cbn [fold_left fst snd].
  rewrite (process_first o initialState t1 c1) by (reflexivity || exact Ha).
  erewrite process_filtered_position; [|reflexivity|exact Hf|exact Hv].
  simpl. f_equal. f_equal; ring.
Qed.


Lemma mobile_second_reading_pulled_to_origin_witness :
  s_position (run defaultOptions initialState
                [(1000, mkCoords 7 80 10); (3000, mkCoords 7 80 10)]) =
    Some (mkPos ((1 + 0.00001) / (1 + 0.00001 + 0.01) * 7)
                ((1 + 0.00001) / (1 + 0.00001 + 0.01) * 80)).
Proof.
  apply mobile_second_reading_pulled_to_origin.
  - reflexivity.
  - simpl. lra.
  - unfold isValidReading. simpl.
    rewrite (Rltb_false 50 10) by lra. rewrite calculateDistance_self.
    rewrite (Reqb_false ((3000 - 1000) / 1000) 0) by lra.
    rewrite (Rltb_false 100 (0 / ((3000 - 1000) / 1000))) by (unfold Rdiv; lra).
    reflexivity.
Defined.


End MobileExtraProofs.

Module UltraExtraProofs.
Import Ultra UltraProofs.

Definition bufInv (o : Options) (st : State) : Prop :=
  (length (gpsBuffer st) <= bufferSize o)%nat /\
  Forall (fun r => 0.1 <= confidence r) (gpsBuffer st).

Lemma step_bufInv o st e : bufInv o st -> bufInv o (step o st e).
Proof.
  intros [Hl Hc]. destruct e; simpl.
  - destruct (watch st) as [v|]; [|split; assumption].
    destruct (process_pushed o v st now c) as [E|E]; unfold bufInv; rewrite E;
      [split; assumption|].
    split; [apply pushShift_length_le; exact Hl|].
    apply Forall_pushShift; [exact Hc|]. simpl. apply readingConfidence_ge.
  - split; assumption.
  - split; assumption.
  - destruct (lockTimer st) as [d|]; [destruct (Rleb d now)|]; split; assumption.
  - destruct (s_isLocked st); [split; assumption|].
    destruct (s_position st); split; assumption.
  - split; [simpl; lia|constructor].
Qed.

Lemma ultra_run_app_one o st es e : run o st (es ++ [e]) = step o (run o st es) e.
Proof. unfold run. rewrite fold_left_app. reflexivity. Qed.

Lemma run_bufInv o es : bufInv o (run o initialState es).
Proof.
  induction es as [|e es IH] using rev_ind.
  - split; [simpl; lia|constructor].
  - rewrite ultra_run_app_one. apply step_bufInv. exact IH.
Qed.





(** A reading turns the lock on only through the automatic lock: position
    locking is enabled, at least [lockThreshold] good readings are counted,
    the last [lockThreshold] buffered readings lie within [lockRadius] of
    the weighted average, and the average becomes the locked, published
    and base position with the timer armed [lockDuration] ahead. *)
Theorem reading_lock_preconditions o v st now c :
  s_isLocked st = false ->
  let st' := processGPSReading o v st now c in
  s_isLocked st' = true ->
  exists p, s_lockedPosition st' = Some p /\ s_position st' = Some p /\
    basePosition st' = Some p /\ lockTimer st' = Some (now + lockDuration o) /\
    enablePositionLock o = true /\
    (lockThreshold o <= consecutiveGoodReadings st')%nat /\
    Forall (fun r => calculateDistance p (pos r) <= lockRadius o)
      (sliceNeg (lockThreshold o) (gpsBuffer st')).
Proof.
  intros Hs. cbv zeta. unfold processGPSReading.
  destruct (Rltb _ _); [rewrite Hs; intros H; discriminate|].
  cbv zeta.
  destruct (validateGPSReading _ _ _); cbn [negb];
    [|rewrite Hs; intros H; discriminate].
  destruct (calculateWeightedAverage _ _ _) as [sp|];
    [|simpl; rewrite Hs; intros H; discriminate].
  destruct (enablePositionLock o && negb (v_isLocked v) && _) eqn:Ec.
  2:{ destruct (v_isLocked v), (v_lockedPosition v), (enablePositionLock o);
      try destruct (Rleb (calculateDistance sp _) _); simpl; try rewrite Hs;
      intros H; discriminate. }
  destruct (forallb _ _) eqn:Ef.
  2:{ destruct (v_isLocked v), (v_lockedPosition v), (enablePositionLock o);
      try destruct (Rleb (calculateDistance sp _) _); simpl; try rewrite Hs;
      intros H; discriminate. }
  apply andb_prop in Ec as [Ec Hthr]. apply andb_prop in Ec as [He Hv].
  destruct (v_isLocked v); [discriminate Hv|].
  destruct (v_lockedPosition v); try rewrite He; intros _; exists sp; simpl;
    (split; [reflexivity|]); (split; [reflexivity|]); (split; [reflexivity|]);
    (split; [reflexivity|]); (split; [reflexivity|]);
    (split; [apply Nat.leb_le; exact Hthr|]);
    apply Forall_forall; intros r Hr;
    pose proof (proj1 (forallb_forall _ _) Ef r Hr) as Hr'; cbv beta in Hr';
    destruct (Rleb_spec (calculateDistance sp (pos r)) (lockRadius o));
    first [assumption|discriminate].
Qed.

(** Locking by hand and then letting the lock timer fire, or stopping
    tracking, clears [isLocked] but not [lockedPosition]: both paths only
    call [setIsLocked(false)], so the hook is left unlocked while still
    reporting the old locked position. *)
Theorem unlock_by_timer_or_stop_keeps_lockedPosition o st t t' p :
  s_isLocked st = false -> s_position st = Some p ->
  t + lockDuration o <= t' ->
  let st1 := run o st [ToggleLock t; LockTimerFires t'] in
  let st2 := run o st [ToggleLock t; StopTracking] in
  s_isLocked (run o st [ToggleLock t]) = true /\
  s_isLocked st1 = false /\ s_lockedPosition st1 = Some p /\ lockTimer st1 = None /\
  s_isLocked st2 = false /\ s_lockedPosition st2 = Some p /\ watch st2 = None.
Proof.
  intros Hs Hp Ht. cbv zeta. unfold run. simpl. rewrite Hs, Hp. simpl.
  rewrite (Rleb_true (t + lockDuration o) t') by exact Ht.
  repeat split.
Qed.




Lemma reading_lock_preconditions_witness :
  let rd t := mkBuf (mkPos 0 0) 5 t (readingConfidence defaultOptions 5) true in
  let st := mkState (Some (mkPos 0 0)) None false 5 1 Excellent None false
              (Some (mkView false None)) [rd 1000; rd 2000; rd 3000; rd 4000]
              None 4000 4 (Some (mkPos 0 0)) in
  let st' := processGPSReading defaultOptions (mkView false None) st 5000
               (mkCoords 0 0 5) in
  s_isLocked st' = true /\
  exists p, s_lockedPosition st' = Some p /\ s_position st' = Some p /\
    basePosition st' = Some p /\
    lockTimer st' = Some (5000 + lockDuration defaultOptions) /\
    enablePositionLock defaultOptions = true /\
    (lockThreshold defaultOptions <= consecutiveGoodReadings st')%nat /\
    Forall (fun r => calculateDistance p (pos r) <= lockRadius defaultOptions)
      (sliceNeg (lockThreshold defaultOptions) (gpsBuffer st')).
Proof.
  cbv zeta.
  assert (Hl : s_isLocked (processGPSReading defaultOptions (mkView false None)
    (mkState (Some (mkPos 0 0)) None false 5 1 Excellent None false
       (Some (mkView false None))
       [mkBuf (mkPos 0 0) 5 1000 (readingConfidence defaultOptions 5) true;
        mkBuf (mkPos 0 0) 5 2000 (readingConfidence defaultOptions 5) true;
        mkBuf (mkPos 0 0) 5 3000 (readingConfidence defaultOptions 5) true;
        mkBuf (mkPos 0 0) 5 4000 (readingConfidence defaultOptions 5) true]
       None 4000 4 (Some (mkPos 0 0))) 5000 (mkCoords 0 0 5)) = true).
  { rewrite stationary_step by stationary_side. reflexivity. }
  split; [exact Hl|].
  refine (reading_lock_preconditions defaultOptions (mkView false None) _ 5000
            (mkCoords 0 0 5) _ Hl).
  reflexivity.
Defined.

Lemma unlock_by_timer_or_stop_keeps_lockedPosition_witness :
  let st := mkState (Some (mkPos 0 0)) None false 5 1 Excellent None false None
              [] None 0 0 None in
  let st1 := run defaultOptions st [ToggleLock 0; LockTimerFires 5000] in
  let st2 := run defaultOptions st [ToggleLock 0; StopTracking] in
  s_isLocked (run defaultOptions st [ToggleLock 0]) = true /\
  s_isLocked st1 = false /\ s_lockedPosition st1 = Some (mkPos 0 0) /\
  lockTimer st1 = None /\
  s_isLocked st2 = false /\ s_lockedPosition st2 = Some (mkPos 0 0) /\
  watch st2 = None.
Proof.
  apply unlock_by_timer_or_stop_keeps_lockedPosition.
  - reflexivity.
  - reflexivity.
  - simpl. lra.
Defined.


End UltraExtraProofs.

(** Every history ref stays within its cap in every session: at most 20
    readings in useStableGPS, at most 10 in useMobileGPS, and at most
    [bufferSize] entries in the ultra-stable buffer, whatever the events;
    each hook appends with [push] and drops the oldest with [shift] once
    the cap is exceeded. *)
Theorem history_caps :
  (forall o rs, (length (Stable.readings (StableRun.run o Stable.initialState rs)) <= 20)%nat) /\
  (forall o rs, (length (Mobile.readings (MobileRun.run o Mobile.initialState rs)) <= 10)%nat) /\
  (forall o es, (length (Ultra.gpsBuffer (Ultra.run o Ultra.initialState es)) <= Ultra.bufferSize o)%nat).
Proof.
  split; [|split].
  - intros o rs. induction rs as [|x rs IH] using rev_ind; [simpl; lia|].
    rewrite StableExtraProofs.run_app_one.
    pose proof (StableExtraProofs.process_full o (StableRun.run o Stable.initialState rs)
                  (fst x) (snd x)) as H.
    cbv zeta in H. destruct H as [E|(_ & _ & _ & Hr & _)].
    + rewrite E. exact IH.
    + rewrite Hr. apply pushShift_length_le. exact IH.
  - intros o rs. induction rs as [|x rs IH] using rev_ind; [simpl; lia|].
    rewrite MobileExtraProofs.mobile_run_app_one, MobileExtraProofs.mobile_process_readings.
    apply pushShift_length_le. exact IH.
  - intros o es. exact (proj1 (UltraExtraProofs.run_bufInv o es)).
Qed.
